(** * swarmnode-node: pagination engine and streaming transport

    A shallow embedding of [src/pagination.ts] ([Page], [CursorPage]) and of
    the [WebSocketHandler] class of [src/handlers.ts] ([listen], [stream]),
    together with the properties that the specification states about them.
    Further on come the list requests of [src/client.ts] and
    [src/resources], the two waits for a build ([src/index.ts],
    [src/lib/utils.ts]), and the errors that [HTTPHandler] makes from failed
    responses ([src/error.ts]).

    JavaScript values are untyped at run time, so raw items, transformed
    items and decoded JSON documents all live in one type of values, which
    the development takes as a parameter.  Platform services that are not
    code of this repository are parameters as well: the WHATWG [URL] parser,
    [JSON.parse], and the HTTP transport behind [APIClient.get]. *)

From Stdlib Require Import Ascii String.
From stdpp Require Import gmap strings list fin_maps pretty.

(** ** JavaScript odds and ends *)

(** [!!s] for [s : string | null]: [null] and the empty string are falsy. *)
Definition truthy (s : option string) : bool :=
  match s with
  | None => false
  | Some EmptyString => false
  | Some (String _ _) => true
  end.

(** [Object.fromEntries(entries)]: later entries overwrite earlier ones. *)
Definition fromEntries (entries : list (string * string)) : gmap string (option string) :=
  fold_left (fun m kv => <[kv.1 := Some kv.2]> m) entries ∅.

(** [chunks.join('')] *)
Definition join (chunks : list string) : string :=
  fold_right String.append EmptyString chunks.

(** ** Pagination: [src/pagination.ts] *)

Module Pagination.

Section Options.

Context {JsValue Signal : Type}.

(** [RequestOptions] of [src/client.ts]; an absent field is [None].  A key
    of [query] may be present with value [undefined]. *)
Record RequestOptions := mkOptions {
  query : option (gmap string (option string));
  body : option JsValue;
  headers : option (gmap string string);
  signal : option Signal;
  timeout : option Z;
}.

(** [{ ...options }] for [options?: RequestOptions]: spreading [undefined]
    gives the empty object. *)
Definition spread (options : option RequestOptions) : RequestOptions :=
  match options with
  | Some o => o
  | None => mkOptions None None None None None
  end.

(** [{ ...nextOptions, query: q }] *)
Definition with_query (o : RequestOptions) (q : gmap string (option string)) : RequestOptions :=
  mkOptions (Some q) (body o) (headers o) (signal o) (timeout o).

End Options.

Arguments RequestOptions : clear implicits.

(** The two response shapes.  [current_page] may be missing from the
    payload, which is why [getCurrentPageNumber] has a default. *)
Record PagePaginatedResponse (JsValue : Type) := mkPageResponse {
  page_next : option string;
  page_previous : option string;
  page_results : list JsValue;
  total_count : Z;
  current_page : option Z;
}.

Record CursorPaginatedResponse (JsValue : Type) := mkCursorResponse {
  cursor_next : option string;
  cursor_previous : option string;
  cursor_results : list JsValue;
}.

Arguments mkPageResponse {_}.
Arguments page_next {_}.
Arguments page_previous {_}.
Arguments page_results {_}.
Arguments total_count {_}.
Arguments current_page {_}.
Arguments mkCursorResponse {_}.
Arguments cursor_next {_}.
Arguments cursor_previous {_}.
Arguments cursor_results {_}.

(** What the two page classes read from a response: [response.next] and
    [response.results]. *)
Class Paginated (JsValue Resp : Type) := {
  next : Resp -> option string;
  results : Resp -> list JsValue;
}.

#[export] Instance page_paginated JsValue : Paginated JsValue (PagePaginatedResponse JsValue) :=
  {| next := page_next; results := page_results |}.

#[export] Instance cursor_paginated JsValue : Paginated JsValue (CursorPaginatedResponse JsValue) :=
  {| next := cursor_next; results := cursor_results |}.

(** Errors that can come out of [getNextPage]: the [TypeError] of
    [new URL(...)], or whatever the transport rejected with. *)
Inductive PageError (ApiError : Type) :=
  | InvalidURL (url : string)
  | TransportError (e : ApiError).

Arguments InvalidURL {_}.
Arguments TransportError {_}.

Section Pages.

Context {JsValue Signal ApiError World Resp : Type} `{!Paginated JsValue Resp}.

(** [new URL(s).searchParams] as a list of entries; [None] when the
    constructor throws. *)
Variable url_searchParams : string -> option (list (string * string)).

(** [client.get(path, options)] against some server state. *)
Variable client_get :
  string -> option (RequestOptions JsValue Signal) -> World -> (ApiError + Resp) * World.

#[local] Abbreviation Options := (RequestOptions JsValue Signal).

(** The network as the pages see it: the server state and a spy that
    records every request handed to the transport. *)
Record Net := mkNet {
  world : World;
  calls : list (string * option Options);
}.

Definition get (path : string) (options : option Options) (net : Net) : (ApiError + Resp) * Net :=
  let '(r, w) := client_get path options (world net) in
  (r, mkNet w (calls net ++ [(path, options)])).

(** [class Page] and [class CursorPage]: the [client] field is the
    transport above. *)
Record Page := mkPage {
  path : string;
  response : Resp;
  options : option Options;
  transformer : option (JsValue -> JsValue);
}.

(** [this.response.results.map(this.transformer)]: the transformers of
    this repository are unary, so the index and the array that [map] also
    passes are left out. *)
Definition getItems (this : Page) : list JsValue :=
  match transformer this with
  | Some f => map f (results (response this))
  | None => results (response this)
  end.

Definition hasNextPage (this : Page) : bool :=
  truthy (next (response this)).

(** [getNextPage()].  The first two branches are [if (!this.response.next)
    return null]; in the third, [new URL(...)] may throw. *)
Definition getNextPage (this : Page) (net : Net) : (PageError ApiError + option Page) * Net :=
  match next (response this) with
  | None => (inr None, net)
  | Some EmptyString => (inr None, net)
  | Some url =>
      let nextOptions := spread (options this) in
      match url_searchParams url with
      | None => (inl (InvalidURL url), net)
      | Some searchParams =>
          let nextOptions := with_query nextOptions (fromEntries searchParams) in
          match get (path this) (Some nextOptions) net with
          | (inl e, net') => (inl (TransportError e), net')
          | (inr response, net') =>
              (inr (Some (mkPage (path this) response (Some nextOptions) (transformer this))), net')
          end
      end
  end.

(** How a full traversal ends. *)
Inductive Completion :=
  | Done
  | Threw (e : PageError ApiError)
  | OutOfFuel.

(** [async *[Symbol.asyncIterator]()], consumed to the end.  The loop
    variable ([self] in [Page], [currentPage] in [CursorPage]) advances; the
    inner [for] reads [this.getItems()]. *)
Fixpoint asyncIterator_loop (fuel : nat) (this : Page) (self : option Page) (net : Net)
  : list JsValue * Completion * Net :=
  match fuel with
  | 0 => ([], OutOfFuel, net)
  | S fuel =>
      let items := getItems this in
      match self with
      | None => (items, Done, net)
      | Some p =>
          if negb (hasNextPage p) then (items, Done, net)
          else
            match getNextPage p net with
            | (inl e, net') => (items, Threw e, net')
            | (inr self', net') =>
                let '(rest, c, net'') := asyncIterator_loop fuel this self' net' in
                (items ++ rest, c, net'')
            end
      end
  end.

Definition asyncIterator (fuel : nat) (this : Page) (net : Net) :=
  asyncIterator_loop fuel this (Some this) net.

(** [n] chained calls of [getNextPage], stopping at the first one that
    fails or that finds no next page. *)
Fixpoint getNextPages (n : nat) (this : Page) (net : Net) : (PageError ApiError + option Page) * Net :=
  match n with
  | 0 => (inr (Some this), net)
  | S n =>
      match getNextPages n this net with
      | (inr (Some p), net') => getNextPage p net'
      | other => other
      end
  end.

End Pages.

(** [Page.getCurrentPageNumber]: [this.response.current_page ?? 1]. *)
Definition getCurrentPageNumber {JsValue Signal}
  (this : @Page JsValue Signal (PagePaginatedResponse JsValue)) : Z :=
  default 1%Z (current_page (response this)).

End Pagination.

(** ** Streaming transport: [WebSocketHandler] in [src/handlers.ts] *)

Module Streaming.

(** *** The [ws] socket, as far as the handler depends on it *)

Inductive ReadyState := CONNECTING | OPEN | CLOSING | CLOSED.

#[export] Instance ReadyState_eq_dec : EqDecision ReadyState.
Proof. solve_decision. Defined.

(** [close_calls] counts the calls of [ws.close()] made by the handler. *)
Record WebSocket := mkWebSocket {
  url : string;
  readyState : ReadyState;
  close_calls : nat;
}.

(** [ws.close()]: starts the closing handshake unless the socket is closed
    already. *)
Definition ws_close (ws : WebSocket) : WebSocket :=
  mkWebSocket (url ws)
    (if decide (readyState ws = CLOSED) then CLOSED else CLOSING)
    (S (close_calls ws)).

(** [setTimeout] / [clearTimeout]: a one-shot timer with an absolute
    deadline in milliseconds. *)
Inductive Timer :=
  | NoTimer
  | Armed (deadline : Z)
  | Fired.

Definition clearTimeout (timer : Timer) : Timer :=
  match timer with
  | Armed _ => NoTimer
  | other => other
  end.

(** [interface WebSocketOptions] *)
Record WebSocketOptions := mkWsOptions {
  ws_timeout : option Z;
}.

Definition DEFAULT_TIMEOUT : Z := 600000.

(** [options.timeout ?? this.DEFAULT_TIMEOUT] *)
Definition timeout_of (options : WebSocketOptions) : Z :=
  default DEFAULT_TIMEOUT (ws_timeout options).

Section Handler.

(** [JsError] is the type of thrown JavaScript errors: the [SyntaxError] of
    [JSON.parse], the error object of the socket's ['error'] event. *)
Context {JsValue JsError : Type}.

Variable baseURL : string.
Variable JSON_parse : string -> JsError + JsValue.

(** Events emitted by the socket. *)
Inductive WsEvent :=
  | EvOpen
  | EvMessage (data : string)
  | EvClose
  | EvError (error : JsError).

(** The socket's own bookkeeping when it emits an event: it is [OPEN] once
    the handshake succeeds and [CLOSED] by the time ['close'] is emitted. *)
Definition ws_emit (ev : WsEvent) (ws : WebSocket) : WebSocket :=
  match ev with
  | EvOpen =>
      if decide (readyState ws = CONNECTING)
      then mkWebSocket (url ws) OPEN (close_calls ws) else ws
  | EvClose => mkWebSocket (url ws) CLOSED (close_calls ws)
  | _ => ws
  end.

(** [class WebSocketError extends Error] of [src/error.ts] *)
Record WebSocketError := mkWebSocketError {
  message : string;
  cause : option JsError;
}.

Definition timeout_error (timeout : Z) : WebSocketError :=
  mkWebSocketError ("WebSocket connection timed out after " +:+ pretty timeout +:+ "ms") None.

Definition parse_error (error : JsError) : WebSocketError :=
  mkWebSocketError "Failed to parse WebSocket message as JSON" (Some error).

Definition empty_close_error : WebSocketError :=
  mkWebSocketError "Connection closed without receiving any message" None.

Definition connection_error (error : JsError) : WebSocketError :=
  mkWebSocketError "WebSocket connection error" (Some error).

Definition stream_error (error : JsError) : WebSocketError :=
  mkWebSocketError "WebSocket stream error" (Some error).

(** [createWebSocket(path)]; its three listeners only write to the debug
    log. *)
Definition createWebSocket (path : string) : WebSocket :=
  mkWebSocket ("wss://" +:+ baseURL +:+ "/ws" +:+ path) CONNECTING 0.

(** [handleWebSocketClose(chunks, resolve, reject)]: [inr v] stands for
    [resolve(v)], [inl e] for [reject(e)]. *)
Definition handleWebSocketClose (chunks : list string) : WebSocketError + JsValue :=
  let message := join chunks in
  match message with
  | EmptyString => inl empty_close_error
  | _ =>
      match JSON_parse message with
      | inr v => inr v
      | inl error => inl (parse_error error)
      end
  end.

(** *** [listen] *)

(** One [listen] call: the socket, the [chunks] array, the timer behind
    [timeoutId], and the returned promise ([None] while pending). *)
Record Listen := mkListen {
  l_socket : WebSocket;
  chunks : list string;
  l_timer : Timer;
  promise : option (WebSocketError + JsValue);
}.

(** [resolve] and [reject] of a promise: only the first call settles it. *)
Definition settle (r : WebSocketError + JsValue) (st : Listen) : Listen :=
  mkListen (l_socket st) (chunks st) (l_timer st)
    (match promise st with None => Some r | settled => settled end).

Section ListenCall.

Variable path : string.
Variable options : WebSocketOptions.

(** The synchronous part of [listen], run at time [t]. *)
Definition listen (t : Z) : Listen :=
  mkListen (createWebSocket path) [] (Armed (t + timeout_of options)) None.

(** The timer callback. *)
Definition listen_timeout (st : Listen) : Listen :=
  let st := settle (inl (timeout_error (timeout_of options))) st in
  mkListen (ws_close (l_socket st)) (chunks st) Fired (promise st).

(** The ['message'], ['close'] and ['error'] listeners. *)
Definition listen_on (ev : WsEvent) (st : Listen) : Listen :=
  let st := mkListen (ws_emit ev (l_socket st)) (chunks st) (l_timer st) (promise st) in
  match ev with
  | EvOpen => st
  | EvMessage data =>
      mkListen (l_socket st) (chunks st ++ [data]) (l_timer st) (promise st)
  | EvClose =>
      let st := mkListen (l_socket st) (chunks st) (clearTimeout (l_timer st)) (promise st) in
      settle (handleWebSocketClose (chunks st)) st
  | EvError error =>
      let st := mkListen (l_socket st) (chunks st) (clearTimeout (l_timer st)) (promise st) in
      settle (inl (connection_error error)) st
  end.

(** Time passes to [t]: a timer that is due runs before anything that
    happens at [t]. *)
Definition listen_tick (t : Z) (st : Listen) : Listen :=
  match l_timer st with
  | Armed deadline => if decide (deadline ≤ t)%Z then listen_timeout st else st
  | _ => st
  end.

(** One turn of the event loop at time [t]: an event of the socket, or
    nothing but the passing of time. *)
Definition listen_step (st : Listen) (turn : Z * option WsEvent) : Listen :=
  let st := listen_tick turn.1 st in
  match turn.2 with
  | Some ev => listen_on ev st
  | None => st
  end.

Definition listen_run (t0 : Z) (turns : list (Z * option WsEvent)) : Listen :=
  fold_left listen_step turns (listen t0).

(** The fragments delivered by a run of ['message'] events. *)
Definition listen_fragments (turns : list (Z * option WsEvent)) : list string :=
  omap (fun turn => match turn.2 with Some (EvMessage data) => Some data | _ => None end) turns.

(** The three situations a [listen] call can be in: waiting with the timer
    armed for its original deadline, done after a ['close'] or ['error']
    event with the timer cleared, or timed out. *)
Definition listen_inv (deadline : Z) (st : Listen) : Prop :=
  (l_timer st = Armed deadline /\ promise st = None /\ close_calls (l_socket st) = 0)
  \/ (l_timer st = NoTimer /\ is_Some (promise st))
  \/ (l_timer st = Fired /\ promise st = Some (inl (timeout_error (timeout_of options)))
      /\ close_calls (l_socket st) = 1
      /\ (readyState (l_socket st) = CLOSING \/ readyState (l_socket st) = CLOSED)).

End ListenCall.

(** *** [stream] *)

(** Where the generator stands: not started, parked at the [yield], inside
    the [await Promise.race(...)], or finished. *)
Inductive GenStatus :=
  | SuspendedStart
  | SuspendedYield
  | Awaiting
  | Completed.

(** What the consumer asks of the generator: [next()], or [return()] when a
    [for await] loop is left by [break] or by an exception. *)
Inductive Request := Next | Return.

(** How a request is answered: a value, [{ done: true }], or a rejection. *)
Inductive Output :=
  | Yielded (value : JsValue)
  | Finished
  | Failed (error : WebSocketError).

(** One [stream] generator: the locals [ws], [queue] and
    [isConnectionClosed], the timer behind [timeoutPromise], the generator's
    status and its queue of unanswered requests, the answers given so far,
    and the exceptions that escaped from event listeners. *)
Record Stream := mkStream {
  socket : option WebSocket;
  queue : list string;
  isConnectionClosed : bool;
  timer : Timer;
  status : GenStatus;
  requests : list Request;
  outputs : list Output;
  uncaught : list WebSocketError;
}.

Definition with_socket (ws : WebSocket) (st : Stream) : Stream :=
  mkStream (Some ws) (queue st) (isConnectionClosed st) (timer st) (status st)
    (requests st) (outputs st) (uncaught st).

Definition with_queue (q : list string) (st : Stream) : Stream :=
  mkStream (socket st) q (isConnectionClosed st) (timer st) (status st)
    (requests st) (outputs st) (uncaught st).

Definition with_closed (st : Stream) : Stream :=
  mkStream (socket st) (queue st) true (timer st) (status st)
    (requests st) (outputs st) (uncaught st).

Definition with_timer (tm : Timer) (st : Stream) : Stream :=
  mkStream (socket st) (queue st) (isConnectionClosed st) tm (status st)
    (requests st) (outputs st) (uncaught st).

Definition with_status (s : GenStatus) (st : Stream) : Stream :=
  mkStream (socket st) (queue st) (isConnectionClosed st) (timer st) s
    (requests st) (outputs st) (uncaught st).

Definition with_requests (reqs : list Request) (st : Stream) : Stream :=
  mkStream (socket st) (queue st) (isConnectionClosed st) (timer st) (status st)
    reqs (outputs st) (uncaught st).

Definition answer (o : Output) (st : Stream) : Stream :=
  mkStream (socket st) (queue st) (isConnectionClosed st) (timer st) (status st)
    (requests st) (outputs st ++ [o]) (uncaught st).

Definition throw_in_listener (e : WebSocketError) (st : Stream) : Stream :=
  mkStream (socket st) (queue st) (isConnectionClosed st) (timer st) (status st)
    (requests st) (outputs st) (uncaught st ++ [e]).

Section StreamCall.

Variable path : string.
Variable options : WebSocketOptions.

(** [stream(path, options)]: calling an async generator function runs none
    of its body. *)
Definition stream : Stream :=
  mkStream None [] false NoTimer SuspendedStart [] [] [].

(** The body up to the loop, run at time [t]: [createWebSocket],
    [setupStreamHandlers], and the [setTimeout] of [timeoutPromise]. *)
Definition start (t : Z) (st : Stream) : Stream :=
  with_timer (Armed (t + timeout_of options)) (with_socket (createWebSocket path) st).

(** The [finally] block of [stream]. *)
Definition teardown (st : Stream) : Stream :=
  match socket st with
  | Some ws => if decide (readyState ws = CLOSED) then st else with_socket (ws_close ws) st
  | None => st
  end.

(** The generator finishes: the [finally] block runs and the request being
    served is answered with [o]. *)
Definition complete (o : Output) (st : Stream) : Stream :=
  answer o (with_status Completed (teardown st)).

(** [processStreamMessages] from the head of its [while] loop to the next
    point where the generator stops: a [yield], the [await], or its end. *)
Definition loop (st : Stream) : Stream :=
  if isConnectionClosed st then complete Finished st
  else
    match queue st with
    | message :: rest =>
        match JSON_parse message with
        | inr value => answer (Yielded value) (with_status SuspendedYield (with_queue rest st))
        | inl error => complete (Failed (parse_error error)) (with_queue rest st)
        end
    | [] =>
        match timer st with
        | Fired => complete (Failed (timeout_error (timeout_of options))) st
        | _ => with_status Awaiting st
        end
    end.

(** The generator serves its queue of requests, one at a time, for as long
    as it is not inside the [await]. *)
Fixpoint drive (t : Z) (reqs : list Request) (st : Stream) : Stream :=
  match reqs with
  | [] => with_requests [] st
  | r :: rest =>
      match status st, r with
      | Awaiting, _ => with_requests reqs st
      | Completed, _ => drive t rest (answer Finished st)
      | SuspendedStart, Return => drive t rest (answer Finished (with_status Completed st))
      | SuspendedStart, Next =>
          let st' := loop (start t st) in
          match status st' with
          | Awaiting => with_requests reqs st'
          | _ => drive t rest st'
          end
      | SuspendedYield, Return => drive t rest (complete Finished st)
      | SuspendedYield, Next =>
          let st' := loop st in
          match status st' with
          | Awaiting => with_requests reqs st'
          | _ => drive t rest st'
          end
      end
  end.

(** The consumer calls [next()] or [return()]. *)
Definition call (t : Z) (r : Request) (st : Stream) : Stream :=
  drive t (requests st ++ [r]) st.

(** The [await Promise.race(...)] is resolved by a ['message'] or ['close']
    event: the loop goes round again for the request being served. *)
Definition wake (t : Z) (st : Stream) : Stream :=
  match status st with
  | Awaiting =>
      let st' := loop st in
      match status st' with
      | Awaiting => st'
      | _ => drive t (tail (requests st')) st'
      end
  | _ => st
  end.

(** The listeners of [setupStreamHandlers], and the one-shot listeners of
    the pending [await].  The ['error'] listener throws from inside the
    event callback: the exception leaves through the emitter, not through
    the generator, and is recorded in [uncaught]. *)
Definition stream_on (t : Z) (ev : WsEvent) (st : Stream) : Stream :=
  match socket st with
  | None => st
  | Some ws =>
      let st := with_socket (ws_emit ev ws) st in
      match ev with
      | EvOpen => st
      | EvMessage data => wake t (with_queue (queue st ++ [data]) st)
      | EvClose => wake t (with_closed st)
      | EvError error => throw_in_listener (stream_error error) st
      end
  end.

(** The timer callback rejects [timeoutPromise]; a pending race is lost to
    it, and the error leaves the generator through [finally]. *)
Definition stream_timeout (t : Z) (st : Stream) : Stream :=
  let st := with_timer Fired st in
  match status st with
  | Awaiting =>
      drive t (tail (requests st)) (complete (Failed (timeout_error (timeout_of options))) st)
  | _ => st
  end.

(** Time passes to [t]: as in [listen_tick], a timer that is due runs
    before anything that happens at [t]. *)
Definition stream_tick (t : Z) (st : Stream) : Stream :=
  match timer st with
  | Armed deadline => if decide (deadline ≤ t)%Z then stream_timeout t st else st
  | _ => st
  end.

(** What can happen in one turn of the event loop.  Events that the socket
    emits back to back are taken as consecutive turns at the same time: a
    generator woken by the first of them takes one fragment and parks at
    the [yield], so it makes no difference that it resumes only after the
    last. *)
Inductive Action :=
  | Ws (ev : WsEvent)
  | Call (r : Request)
  | Idle.

Definition stream_step (st : Stream) (turn : Z * Action) : Stream :=
  let st := stream_tick turn.1 st in
  match turn.2 with
  | Ws ev => stream_on turn.1 ev st
  | Call r => call turn.1 r st
  | Idle => st
  end.

Definition stream_run (turns : list (Z * Action)) : Stream :=
  fold_left stream_step turns stream.

(** The values handed to the consumer, in order. *)
Definition yielded (outs : list Output) : list JsValue :=
  omap (fun o => match o with Yielded v => Some v | _ => None end) outs.

(** The fragments delivered by a run of ['message'] events. *)
Definition fragments (turns : list (Z * Action)) : list string :=
  omap (fun turn => match turn.2 with Ws (EvMessage data) => Some data | _ => None end) turns.

(** The fragments that reach the queue in one turn: a ['message'] event
    counts once the socket exists. *)
Definition arrivals (st : Stream) (turn : Z * Action) : list string :=
  match socket st, turn.2 with
  | Some _, Ws (EvMessage data) => [data]
  | _, _ => []
  end.

(** How the answers given so far relate to the fragments taken from the
    queue so far: while the generator runs, the answers are the decoded
    fragments, one for one and in order; after it has finished they are
    followed by answers that carry no value; after a parse failure the
    fragment taken last is the malformed one and the first answer after the
    values is its error. *)
Inductive Consumed : list string -> list Output -> GenStatus -> Prop :=
  | consumed_live taken values s :
      Forall2 (fun m v => JSON_parse m = inr v) taken values ->
      s <> Completed ->
      Consumed taken (Yielded <$> values) s
  | consumed_done taken values rest :
      Forall2 (fun m v => JSON_parse m = inr v) taken values ->
      yielded rest = [] ->
      Consumed taken ((Yielded <$> values) ++ rest) Completed
  | consumed_failed taken values bad error rest :
      Forall2 (fun m v => JSON_parse m = inr v) taken values ->
      JSON_parse bad = inl error ->
      yielded rest = [] ->
      Consumed (taken ++ [bad]) ((Yielded <$> values) ++ Failed (parse_error error) :: rest)
        Completed.

(** The property carried along a run: the fragments received are those
    taken from the queue followed by those still in it. *)
Definition fifo (received : list string) (st : Stream) : Prop :=
  socket st <> None /\ status st <> SuspendedStart
  /\ exists taken, received = taken ++ queue st /\ Consumed taken (outputs st) (status st).

(** The socket and the generator's status, as related by [teardown]. *)
Definition torn_down (st : Stream) : Prop :=
  match socket st with
  | None => status st = SuspendedStart \/ status st = Completed
  | Some ws =>
      status st <> SuspendedStart
      /\ close_calls ws <= 1
      /\ (status st <> Completed -> close_calls ws = 0)
      /\ (status st = Completed ->
          (readyState ws = CLOSING \/ readyState ws = CLOSED)
          /\ (close_calls ws = 0 -> readyState ws = CLOSED))
  end.

(** The one timer of a started generator: armed for its original deadline
    or fired, and no timeout failure was reported while it is armed. *)
Definition single_timer (deadline : Z) (st : Stream) : Prop :=
  status st <> SuspendedStart
  /\ (timer st = Armed deadline \/ timer st = Fired)
  /\ (timer st = Armed deadline -> Failed (timeout_error (timeout_of options)) ∉ outputs st)
  /\ (status st = Awaiting -> timer st = Armed deadline).

End StreamCall.

End Handler.

End Streaming.

(** ** Concrete collaborators for the worked examples *)

Module Demo.

(** Decoded JSON documents: numbers and objects with one member. *)
Inductive Json :=
  | JNum (n : Z)
  | JObj (key : string) (value : Json).

Definition dq : ascii := "034"%char.

(** The two halves [{"a":] and [1}] of one document. *)
Definition half1 : string := String "{" (String dq (String "a" (String dq ":"))).
Definition half2 : string := "1}".

Definition quoted (s : string) : string :=
  String dq (s +:+ String dq EmptyString).

(** The documents [{"a":1}], [{"x":1}] and [{"x":2}]. *)
Definition doc_a1 : string := "{" +:+ quoted "a" +:+ ":1}".
Definition doc_x1 : string := "{" +:+ quoted "x" +:+ ":1}".
Definition doc_x2 : string := "{" +:+ quoted "x" +:+ ":2}".

(** A stand-in for [JSON.parse] that agrees with it on the texts used in
    the examples: the three documents above decode, and the other texts
    used there (the empty text, ["oops"], halves of a document) are
    rejected with a [SyntaxError]. *)
Definition JSON_parse (text : string) : string + Json :=
  if String.eqb text doc_a1 then inr (JObj "a" (JNum 1))
  else if String.eqb text doc_x1 then inr (JObj "x" (JNum 1))
  else if String.eqb text doc_x2 then inr (JObj "x" (JNum 2))
  else inl "SyntaxError".

Definition baseURL : string := "api.swarmnode.ai".

(** A stand-in for [new URL(...).searchParams] that agrees with it on the
    addresses used in the examples. *)
Definition url_searchParams (url : string) : option (list (string * string)) :=
  if String.eqb url "https://api.swarmnode.ai/v1/stores/?page=2" then Some [("page", "2")]
  else if String.eqb url "https://api.swarmnode.ai/v1/stores/?page=3" then Some [("page", "3")]
  else if String.eqb url "https://api.swarmnode.ai/v1/stores/?b=2" then Some [("b", "2")]
  else None.

(** A transport that serves a fixed chain of responses, one per request. *)
Definition scripted_get {JsValue Signal Resp : Type}
  (path : string) (options : option (Pagination.RequestOptions JsValue Signal))
  (pending : list Resp) : (string + Resp) * list Resp :=
  match pending with
  | r :: rest => (inr r, rest)
  | [] => (inl "404 Not Found", [])
  end.

Definition page1 : Pagination.PagePaginatedResponse Json :=
  Pagination.mkPageResponse (Some "https://api.swarmnode.ai/v1/stores/?page=2") None
    [JNum 1] 2 (Some 1%Z).

Definition page2 : Pagination.PagePaginatedResponse Json :=
  Pagination.mkPageResponse None (Some "https://api.swarmnode.ai/v1/stores/?page=1")
    [JNum 2] 2 (Some 2%Z).

Definition cursor1 : Pagination.CursorPaginatedResponse Json :=
  Pagination.mkCursorResponse (Some "https://api.swarmnode.ai/v1/stores/?page=2") None [JNum 1].

Definition cursor2 : Pagination.CursorPaginatedResponse Json :=
  Pagination.mkCursorResponse None None [JNum 2].

Definition page_mid : Pagination.PagePaginatedResponse Json :=
  Pagination.mkPageResponse (Some "https://api.swarmnode.ai/v1/stores/?page=3")
    (Some "https://api.swarmnode.ai/v1/stores/?page=1") [JNum 20; JNum 21] 3 (Some 2%Z).

(** A page whose [next] is the empty string. *)
Definition page_empty_next : Pagination.PagePaginatedResponse Json :=
  Pagination.mkPageResponse (Some EmptyString) None [JNum 1] 1 (Some 1%Z).

(** [{ query: { a: "1" }, headers: { "X-Trace": "t" } }] *)
Definition options_a : Pagination.RequestOptions Json unit :=
  Pagination.mkOptions (Some {[ "a" := Some "1" ]}) None (Some {[ "X-Trace" := "t" ]}) None None.

Definition page_b : Pagination.PagePaginatedResponse Json :=
  Pagination.mkPageResponse (Some "https://api.swarmnode.ai/v1/stores/?b=2") None
    [JNum 1] 2 (Some 1%Z).

(** A transform that wraps every raw item. *)
Definition wrap (item : Json) : Json := JObj "item" item.

End Demo.

(** ** Further vocabulary and collaborators *)

Module More.

(** The requests that the consumer makes in a run. *)
Definition asked {JsError : Type} (turns : list (Z * @Streaming.Action JsError)) : list Streaming.Request :=
  omap (fun turn => match turn.2 with Streaming.Call r => Some r | _ => None end) turns.

(** The balance of a [stream] generator: [n] requests made, each answered
    or still waiting for its answer, and waiting only while the generator
    waits. *)
Definition balanced {JsValue JsError : Type} (n : nat) (st : @Streaming.Stream JsValue JsError) : Prop :=
  length (Streaming.outputs st) + length (Streaming.requests st) = n
  /\ (Streaming.status st = Streaming.Awaiting -> Streaming.requests st <> [])
  /\ (Streaming.status st <> Streaming.Awaiting -> Streaming.requests st = []).

(** A stand-in for [new URL(...).searchParams] on one more address, with a
    repeated parameter. *)
Definition url_searchParams (url : string) : option (list (string * string)) :=
  if String.eqb url "https://api.swarmnode.ai/v1/stores/?page=2&size=10&page=5"
  then Some [("page", "2"); ("size", "10"); ("page", "5")]
  else Demo.url_searchParams url.

Definition page_repeated : Pagination.PagePaginatedResponse Demo.Json :=
  Pagination.mkPageResponse (Some "https://api.swarmnode.ai/v1/stores/?page=2&size=10&page=5")
    None [Demo.JNum 1] 2 (Some 1%Z).

End More.

(** ** The client's list requests: [src/client.ts] and [src/resources] *)

Module Client.

Import Pagination.

Section Lists.

Context {JsValue Signal ApiError World Resp : Type} `{!Paginated JsValue Resp}.

Variable client_get :
  string -> option (RequestOptions JsValue Signal) -> World -> (ApiError + Resp) * World.

(** [getAPIList(path, options, transformer)] and, at the cursor response
    type, [getAPICursorList]: one [get], wrapped in a page. *)
Definition getAPIList (path : string) (options : option (RequestOptions JsValue Signal))
    (transformer : option (JsValue -> JsValue)) (net : @Net JsValue Signal World)
  : (ApiError + @Page JsValue Signal Resp) * @Net JsValue Signal World :=
  match get client_get path options net with
  | (inl e, net') => (inl e, net')
  | (inr response, net') => (inr (mkPage path response options transformer), net')
  end.

End Lists.

Definition getAPICursorList {JsValue Signal ApiError World : Type}
    (client_get : string -> option (RequestOptions JsValue Signal) -> World
                  -> (ApiError + CursorPaginatedResponse JsValue) * World) :=
  getAPIList (Resp := CursorPaginatedResponse JsValue) client_get.

End Client.

Module Resources.

Import Pagination.

(** [options?.page ? { page: String(options.page) } : {}] for an integer
    page number: zero is falsy. *)
Definition page_query (page : option Z) : gmap string (option string) :=
  match page with
  | Some 0%Z | None => ∅
  | Some n => {[ "page" := Some (pretty n) ]}
  end.

(** [{ ...params, ...pageQuery }]: the later spread wins. *)
Definition filter_query (params : option (gmap string (option string))) (page : option Z)
  : gmap string (option string) :=
  page_query page ∪ default ∅ params.

(** [{ query: q }] *)
Definition query_only {JsValue Signal : Type} (q : option (gmap string (option string)))
  : RequestOptions JsValue Signal :=
  mkOptions q None None None None.

Section Lists.

Context {JsValue Signal ApiError World : Type}.

Variable client_get :
  string -> option (RequestOptions JsValue Signal) -> World
  -> (ApiError + PagePaginatedResponse JsValue) * World.
Variable client_get_cursor :
  string -> option (RequestOptions JsValue Signal) -> World
  -> (ApiError + CursorPaginatedResponse JsValue) * World.

(** [Stores.list(options)]: the query is [undefined] without a page. *)
Definition Stores_list (page : option Z) :=
  Client.getAPIList client_get "/v1/stores"
    (Some (query_only match page with
                      | Some 0%Z | None => None
                      | Some n => Some {[ "page" := Some (pretty n) ]}
                      end))
    None.

(** [Builds.list(params, options)] *)
Definition Builds_list (params : option (gmap string (option string))) (page : option Z) :=
  Client.getAPIList client_get "/v1/builds" (Some (query_only (Some (filter_query params page))))
    None.

(** [AgentBuilderJobs.list(params, options)] *)
Definition AgentBuilderJobs_list (params : option (gmap string (option string)))
    (page : option Z) :=
  Client.getAPIList client_get "/v1/agent-builder-jobs"
    (Some (query_only (Some (filter_query params page)))) None.

(** [Executions.list(params, options)], cursor-paginated. *)
Definition Executions_list (params : option (gmap string (option string))) (page : option Z) :=
  Client.getAPICursorList client_get_cursor "/v1/executions"
    (Some (query_only (Some (filter_query params page)))) None.

End Lists.

End Resources.

(** ** Waiting for a build: [src/index.ts] and [src/lib/utils.ts] *)

Module BuildWait.

Import Pagination.

(** What a wait ends with: [new Error(message)] thrown by the wait itself,
    or the rejection of a list request. *)
Inductive WaitError (ApiError : Type) :=
  | JsThrown (message : string)
  | Rejected (e : ApiError).

Arguments JsThrown {_}.
Arguments Rejected {_}.

Inductive Outcome (ApiError A : Type) :=
  | Returned (a : A)
  | Threw (e : WaitError ApiError)
  | OutOfFuel.

Arguments Returned {_ _}.
Arguments Threw {_ _}.
Arguments OutOfFuel {_ _}.

Definition DEFAULT_BUILD_WAIT_TIME : Z := 300000.

Section Wait.

Context {JsValue Signal ApiError World : Type}.

(** Items are whatever the server sent: [item.id] and [item.status] may be
    missing, and [!item] is JavaScript's. *)
Variable prop_id : JsValue -> option string.
Variable prop_status : JsValue -> option string.
Variable truthy_value : JsValue -> bool.

(** [Date.now()] *)
Variable now : World -> Z.

Variable client_get :
  string -> option (RequestOptions JsValue Signal) -> World
  -> (ApiError + PagePaginatedResponse JsValue) * World.

#[local] Abbreviation Net := (@Net JsValue Signal World).

(** [builds.getItems()[0]], and [undefined] for a falsy item as well, since
    all the callers do with it first is [if (!build)]. *)
Definition first_item (items : list JsValue) : option JsValue :=
  match head items with
  | Some item => if truthy_value item then Some item else None
  | None => None
  end.

(** The [while] loop of [SwarmNodeAI.waitForBuildCompletion]. *)
Fixpoint poll (fuel : nat) (jobId : option string) (startTime timeoutMs : Z) (net : Net)
  : Outcome ApiError (option JsValue) * Net :=
  match fuel with
  | 0 => (OutOfFuel, net)
  | S fuel =>
      if decide (now (world net) - startTime < timeoutMs)%Z then
        match Resources.Builds_list client_get
                (Some {[ "agent_builder_job_id" := jobId ]}) None net with
        | (inl e, net') => (Threw (Rejected e), net')
        | (inr builds, net') =>
            match first_item (getItems builds) with
            | None => poll fuel jobId startTime timeoutMs net'
            | Some build =>
                if decide (prop_status build = Some "success") then (Returned (Some build), net')
                else if decide (prop_status build = Some "failure")
                     then (Threw (JsThrown "Build failed"), net')
                     else poll fuel jobId startTime timeoutMs net'
            end
        end
      else (Returned None, net)
  end.

(** [SwarmNodeAI.waitForBuildCompletion(agentId, timeoutMs)] *)
Definition waitForBuildCompletion (fuel : nat) (agentId : string) (timeoutMs : option Z)
    (net : Net) : Outcome ApiError (option JsValue) * Net :=
  let timeoutMs := default DEFAULT_BUILD_WAIT_TIME timeoutMs in
  match Resources.AgentBuilderJobs_list client_get (Some {[ "agent_id" := Some agentId ]})
          None net with
  | (inl e, net') => (Threw (Rejected e), net')
  | (inr agentBuilderJobs, net') =>
      match first_item (getItems agentBuilderJobs) with
      | None => (Threw (JsThrown "Agent builder job not found"), net')
      | Some agentBuilderJob =>
          let startTime := now (world net') in
          poll fuel (prop_id agentBuilderJob) startTime timeoutMs net'
      end
  end.

(** The [while] loop of [waitForBuildCompletion] in [src/lib/utils.ts]. *)
Fixpoint utils_poll (fuel : nat) (agentBuilderJobId : string) (startTime timeoutMs : Z)
    (net : Net) : Outcome ApiError (option string) * Net :=
  match fuel with
  | 0 => (OutOfFuel, net)
  | S fuel =>
      if decide (now (world net) - startTime < timeoutMs)%Z then
        match Resources.Builds_list client_get
                (Some {[ "agent_builder_job_id" := Some agentBuilderJobId ]}) None net with
        | (inl e, net') => (Threw (Rejected e), net')
        | (inr builds, net') =>
            match first_item (getItems builds) with
            | None => (Threw (JsThrown "Build not found"), net')
            | Some build =>
                if decide (prop_status build = Some "success")
                then (Returned (prop_id build), net')
                else if decide (prop_status build = Some "failure")
                     then (Threw (JsThrown "Build failed"), net')
                     else utils_poll fuel agentBuilderJobId startTime timeoutMs net'
            end
        end
      else (Threw (JsThrown "Build timeout exceeded"), net)
  end.

(** [waitForBuildCompletion(swarmnode, agentBuilderJobId, timeoutMs)] of
    [src/lib/utils.ts] *)
Definition utils_waitForBuildCompletion (fuel : nat) (agentBuilderJobId : string)
    (timeoutMs : option Z) (net : Net) : Outcome ApiError (option string) * Net :=
  utils_poll fuel agentBuilderJobId (now (world net)) (default 300000%Z timeoutMs) net.

End Wait.

End BuildWait.

(** A build server for the worked examples: items carry an id and a
    status, every request takes 100 ms and is served from a fixed chain of
    responses. *)
Module BuildDemo.

Record Item := mkItem {
  id : option string;
  status : option string;
}.

Record World := mkWorld {
  clock : Z;
  pending : list (Pagination.PagePaginatedResponse Item);
}.

Definition client_get (path : string) (options : option (Pagination.RequestOptions Item unit))
    (w : World) : (string + Pagination.PagePaginatedResponse Item) * World :=
  match pending w with
  | r :: rest => (inr r, mkWorld (clock w + 100) rest)
  | [] => (inl "503 Service Unavailable", mkWorld (clock w + 100) [])
  end.

Definition one_page (items : list Item) : Pagination.PagePaginatedResponse Item :=
  Pagination.mkPageResponse None None items (Z.of_nat (length items)) (Some 1%Z).

Definition job : Item := mkItem (Some "job_1") (Some "pending").
Definition build_pending : Item := mkItem (Some "build_1") (Some "pending").
Definition build_success : Item := mkItem (Some "build_1") (Some "success").

(** A job, then a build that succeeds at the third look. *)
Definition server : World :=
  mkWorld 1000 [one_page [job]; one_page []; one_page [build_pending]; one_page [build_success]].

Definition net0 : @Pagination.Net Item unit World := Pagination.mkNet server [].

End BuildDemo.

(** ** API errors: [src/error.ts] *)

Module Errors.

(** The classes that [APIError.generate] chooses from; [PlainAPIError] is
    [APIError] itself. *)
Inductive ErrorClass :=
  | PlainAPIError
  | APIConnectionError
  | BadRequestError
  | AuthenticationError
  | PermissionDeniedError
  | NotFoundError
  | ConflictError
  | UnprocessableEntityError
  | RateLimitError
  | InternalServerError.

(** [castToError(err)], kept symbolic: the value that the cause was made
    from. *)
Inductive Cause (JsValue : Type) :=
  | castToError (err : option JsValue).

Arguments castToError {_}.

(** [status && ...] for [status : number | undefined] with an integer
    status: [undefined] and zero are falsy. *)
Definition truthy_number (n : option Z) : bool :=
  match n with
  | Some 0%Z | None => false
  | Some _ => true
  end.

Section Errors.

Context {JsValue Headers : Type}.

(** What [makeMessage] asks of an error body: JavaScript's truthiness, the
    [message] property ([None] for [undefined]), [typeof v === 'string'],
    and [JSON.stringify], which may give [undefined]. *)
Variable truthy_value : JsValue -> bool.
Variable prop_message : JsValue -> option JsValue.
Variable typeof_string : JsValue -> option string.
Variable JSON_stringify : JsValue -> option string.

Record APIError := mkAPIError {
  class : ErrorClass;
  status : option Z;
  headers : option Headers;
  error : option JsValue;
  message : string;
  cause : option (Cause JsValue);
}.

Definition makeMessage (status : option Z) (error : option JsValue) (message : option string)
  : string :=
  let rest :=
    match error with
    | Some e => if truthy_value e then JSON_stringify e else message
    | None => message
    end in
  let msg :=
    match error ≫= prop_message with
    | Some m =>
        if truthy_value m then
          match typeof_string m with
          | Some text => Some text
          | None => JSON_stringify m
          end
        else rest
    | None => rest
    end in
  match (if truthy_number status then status else None), (if truthy msg then msg else None) with
  | Some n, Some text => pretty n +:+ " " +:+ text
  | Some n, None => pretty n +:+ " status code (no body)"
  | None, Some text => text
  | None, None => "(no status code or body)"
  end.

(** [new C(status, error, message, headers)] for [APIError] and the
    subclasses that inherit its constructor. *)
Definition new_APIError (c : ErrorClass) (status : option Z) (error : option JsValue)
    (message : option string) (headers : option Headers) : APIError :=
  mkAPIError c status headers error (makeMessage status error message) None.

(** [this.cause = cause] *)
Definition with_cause (c : Cause JsValue) (e : APIError) : APIError :=
  mkAPIError (class e) (status e) (headers e) (error e) (message e) (Some c).

(** [new APIConnectionError({ message, cause })] *)
Definition new_APIConnectionError (message : option string) (cause : option (Cause JsValue))
  : APIError :=
  let e := new_APIError APIConnectionError None None
             (Some (if truthy message then default EmptyString message else "Connection error."))
             None in
  match cause with
  | Some c => with_cause c e
  | None => e
  end.

(** [APIError.generate(status, errorResponse, message, headers)] *)
Definition generate (status : option Z) (errorResponse : option JsValue)
    (message : option string) (headers : option Headers) : APIError :=
  match (if truthy_number status then status else None), headers with
  | Some n, Some _ =>
      let c :=
        if decide (n = 400%Z) then BadRequestError
        else if decide (n = 401%Z) then AuthenticationError
        else if decide (n = 403%Z) then PermissionDeniedError
        else if decide (n = 404%Z) then NotFoundError
        else if decide (n = 409%Z) then ConflictError
        else if decide (n = 422%Z) then UnprocessableEntityError
        else if decide (n = 429%Z) then RateLimitError
        else if decide (500 <= n)%Z then InternalServerError
        else PlainAPIError in
      new_APIError c status errorResponse message headers
  | _, _ => new_APIConnectionError message (Some (castToError errorResponse))
  end.

End Errors.

End Errors.

(** ** Responses: [HTTPHandler] in [src/handlers.ts], [safeJSON] in
    [src/lib/utils.ts] *)

Module Http.

(** [s.includes(sub)] *)
Definition includes (s sub : string) : bool :=
  match String.index 0 sub s with
  | Some _ => true
  | None => false
  end.

(** What a handled response resolves to: [null], a decoded document, or
    the body text. *)
Inductive Body (JsValue : Type) :=
  | BNull
  | BJson (v : JsValue)
  | BText (text : string).

Arguments BNull {_}.
Arguments BJson {_}.
Arguments BText {_}.

Section Handler.

Context {JsValue JsError Headers : Type}.

Variable truthy_value : JsValue -> bool.
Variable prop_message : JsValue -> option JsValue.
Variable typeof_string : JsValue -> option string.
Variable JSON_stringify : JsValue -> option string.
Variable JSON_parse : string -> JsError + JsValue.

(** [headers.get(name)], and the copy
    [new Headers(Object.fromEntries(headers.entries()))]. *)
Variable headers_get : Headers -> string -> option string.
Variable headers_copy : Headers -> Headers.

(** A response of [node-fetch] whose body has been received: [text] is what
    [response.text()] resolves to. *)
Record Response := mkResponse {
  ok : bool;
  status : Z;
  headers : Headers;
  text : string;
}.

#[local] Abbreviation APIError := (@Errors.APIError JsValue Headers).

Definition safeJSON (text : string) : option JsValue :=
  match JSON_parse text with
  | inr v => Some v
  | inl _ => None
  end.

Definition createAPIError (response : Response) : APIError :=
  let headers := headers_copy (headers response) in
  let errText := text response in
  let errJSON := safeJSON errText in
  Errors.generate truthy_value prop_message typeof_string JSON_stringify
    (Some (status response)) errJSON
    (match errJSON with
     | Some v => if truthy_value v then None else Some errText
     | None => Some errText
     end)
    (Some headers).

(** How [handleResponse] ends: with a value, with the [APIError] it throws,
    or with the rejection of [response.json()]. *)
Inductive Handled :=
  | Resolved (v : Body JsValue)
  | Thrown (e : APIError)
  | Rejected (e : JsError).

Definition handleResponse (response : Response) : Handled :=
  if negb (ok response) then Thrown (createAPIError response)
  else if decide (status response = 204%Z) then Resolved BNull
  else
    match headers_get (headers response) "content-type" with
    | Some contentType =>
        if includes contentType "application/json" then
          match JSON_parse (text response) with
          | inr v => Resolved (BJson v)
          | inl e => Rejected e
          end
        else Resolved (BText (text response))
    | None => Resolved (BText (text response))
    end.

End Handler.

End Http.

(** Error bodies for the worked examples. *)
Module HttpDemo.

Inductive Json :=
  | JNull
  | JStr (text : string)
  | JObj (key : string) (value : Json).

Definition truthy_value (v : Json) : bool :=
  match v with
  | JNull | JStr EmptyString => false
  | _ => true
  end.

Definition prop_message (v : Json) : option Json :=
  match v with
  | JObj "message" m => Some m
  | _ => None
  end.

Definition typeof_string (v : Json) : option string :=
  match v with
  | JStr text => Some text
  | _ => None
  end.

(** A stand-in for [JSON.stringify] that agrees with it on documents
    without characters that need escaping. *)
Fixpoint JSON_stringify_text (v : Json) : string :=
  match v with
  | JNull => "null"
  | JStr text => Demo.quoted text
  | JObj key value => "{" +:+ Demo.quoted key +:+ ":" +:+ JSON_stringify_text value +:+ "}"
  end.

Definition JSON_stringify (v : Json) : option string := Some (JSON_stringify_text v).

(** The document [{"message":"Store not found"}]. *)
Definition doc_not_found : string :=
  "{" +:+ Demo.quoted "message" +:+ ":" +:+ Demo.quoted "Store not found" +:+ "}".

(** A stand-in for [JSON.parse] that agrees with it on the bodies used in
    the examples. *)
Definition JSON_parse (text : string) : string + Json :=
  if String.eqb text doc_not_found then inr (JObj "message" (JStr "Store not found"))
  else if String.eqb text "null" then inr JNull
  else inl "SyntaxError".

(** Headers as a list of entries with lower-case names. *)
Definition headers_get (headers : list (string * string)) (name : string) : option string :=
  snd <$> List.find (fun entry => String.eqb entry.1 name) headers.

Definition headers_copy (headers : list (string * string)) : list (string * string) := headers.

Definition not_found : @Http.Response (list (string * string)) :=
  Http.mkResponse false 404 [("content-type", "application/json")] doc_not_found.

Definition bad_gateway : @Http.Response (list (string * string)) :=
  Http.mkResponse false 502 [("content-type", "text/html")] "Bad Gateway".

Definition no_content : @Http.Response (list (string * string)) :=
  Http.mkResponse true 204 [("content-type", "application/json")] EmptyString.

End HttpDemo.

(** * Properties *)

(** ** Pagination *)

Module PaginationSpec.

Import Pagination.

Section Pages.

Context {JsValue Signal ApiError World Resp : Type} `{!Paginated JsValue Resp}.
Variable url_searchParams : string -> option (list (string * string)).
Variable client_get :
  string -> option (RequestOptions JsValue Signal) -> World -> (ApiError + Resp) * World.

#[local] Abbreviation Page := (@Page JsValue Signal Resp).
#[local] Abbreviation Net := (@Net JsValue Signal World).
#[local] Abbreviation getNextPage := (getNextPage url_searchParams client_get).
#[local] Abbreviation getNextPages := (getNextPages url_searchParams client_get).
#[local] Abbreviation asyncIterator_loop := (asyncIterator_loop url_searchParams client_get).

Lemma truthy_Some (o : option string) :
  truthy o = true -> exists c s, o = Some (String c s).
Proof. destruct o as [[|c s]|]; simpl; try discriminate. eauto. Qed.

Lemma get_calls (p : string) (opts : option (RequestOptions JsValue Signal)) (net : Net) :
  calls (get client_get p opts net).2 = calls net ++ [(p, opts)]
  /\ (get client_get p opts net).1 = (client_get p opts (world net)).1
  /\ world (get client_get p opts net).2 = (client_get p opts (world net)).2.
Proof. unfold get. destruct (client_get p opts (world net)); done. Qed.

(** A successful [getNextPage] hands its path and its transform on, and
    wraps the response that the transport returned for its one request. *)
Lemma getNextPage_Some (this next_page : Page) (net net' : Net) :
  getNextPage this net = (inr (Some next_page), net') ->
  path next_page = path this
  /\ transformer next_page = transformer this
  /\ exists opts,
       calls net' = calls net ++ [(path this, Some opts)]
       /\ client_get (path this) (Some opts) (world net) = (inr (response next_page), world net').
Proof.
  unfold Pagination.getNextPage.
  destruct (next (response this)) as [[|c u]|]; try discriminate.
  destruct (url_searchParams (String c u)) as [ps|]; try discriminate.
  unfold get.
  destruct (client_get _ _ (world net)) as [[e|r] w] eqn:E; try discriminate.
  intros [= <- <-]. simpl. eauto.
Qed.

Lemma getNextPages_transformer (n : nat) (P Q : Page) (net net' : Net) :
  getNextPages n P net = (inr (Some Q), net') ->
  path Q = path P /\ transformer Q = transformer P.
Proof.
  revert Q net'. induction n as [|n IH]; simpl; intros Q net'.
  - intros [= <- <-]. done.
  - destruct (Pagination.getNextPages _ _ n P net) as [[e|[p|]] net1]; try discriminate.
    intros H. destruct (IH _ _ eq_refl) as [Hp Ht].
    apply getNextPage_Some in H as (-> & -> & _). done.
Qed.

(** The loop only ever yields the items of the page it was started on: the
    inner [for] reads [this.getItems()] while the loop variable advances. *)
Lemma asyncIterator_loop_yields (fuel : nat) (this : Page) (self : option Page) (net : Net) :
  exists k, (asyncIterator_loop fuel this self net).1.1 = concat (replicate k (getItems this)).
Proof.
  revert self net. induction fuel as [|fuel IH]; intros self net; simpl.
  - by exists 0.
  - destruct self as [p|]; [|exists 1; simpl; by rewrite app_nil_r].
    destruct (negb (hasNextPage p)); [exists 1; simpl; by rewrite app_nil_r|].
    destruct (Pagination.getNextPage _ _ p net) as [[e|self'] net'];
      [exists 1; simpl; by rewrite app_nil_r|].
    destruct (IH self' net') as [k Hk].
    destruct (Pagination.asyncIterator_loop _ _ fuel this self' net') as [[rest c] net''].
    simpl in *. exists (S k). simpl. by rewrite Hk.
Qed.

(** C6. [getItems] is the transform applied to the raw results, element by
    element and in order (the raw results themselves when there is no
    transform), and after any number [n] of chained [getNextPage] calls the
    page reached still carries the transform of the first page: its items
    are that transform applied to the results of the response that the
    transport returned for the last request. *)
Theorem transform_propagation (n : nat) (P Q : Page) (net net' : Net) :
  getNextPages n P net = (inr (Some Q), net') ->
  getItems P = match transformer P with
               | Some f => map f (results (response P))
               | None => results (response P)
               end
  /\ getItems Q = match transformer P with
                  | Some f => map f (results (response Q))
                  | None => results (response Q)
                  end
  /\ (0 < n -> exists prev net_prev opts,
        getNextPages (pred n) P net = (inr (Some prev), net_prev)
        /\ client_get (path P) (Some opts) (world net_prev) = (inr (response Q), world net')).
Proof.
  intros H. split; [done|]. split.
  - apply getNextPages_transformer in H as [_ Ht]. unfold getItems. by rewrite Ht.
  - destruct n as [|n]; [lia|]. intros _. simpl in *.
    destruct (Pagination.getNextPages _ _ n P net) as [[e|[prev|]] net1] eqn:E; try discriminate.
    pose proof (getNextPages_transformer _ _ _ _ _ E) as [Hp _].
    apply getNextPage_Some in H as (_ & _ & opts & _ & Hget).
    exists prev, net1, opts. by rewrite <- Hp.
Qed.

(** C5, amended.  When [next] is null or the empty string, [getNextPage]
    resolves to null and the transport sees no request.  When [next] is a
    non-empty string that the URL parser accepts, the transport sees exactly
    one more request: to the page's own path, with options whose query is
    built from the parameters of [next] alone and whose body, headers,
    signal and timeout are those of the page's options; the call returns the
    transport's answer, wrapped in a page on success.  A [next] that the URL
    parser rejects makes the call fail before any request. *)
Theorem getNextPage_request (this : Page) (net : Net) :
  (truthy (next (response this)) = false -> getNextPage this net = (inr None, net))
  /\ (forall url searchParams,
        next (response this) = Some url -> truthy (Some url) = true ->
        url_searchParams url = Some searchParams ->
        let nextOptions := with_query (spread (options this)) (fromEntries searchParams) in
        calls (getNextPage this net).2 = calls net ++ [(path this, Some nextOptions)]
        /\ query nextOptions = Some (fromEntries searchParams)
        /\ body nextOptions = body (spread (options this))
        /\ headers nextOptions = headers (spread (options this))
        /\ signal nextOptions = signal (spread (options this))
        /\ timeout nextOptions = timeout (spread (options this))
        /\ (getNextPage this net).1 =
             match (client_get (path this) (Some nextOptions) (world net)).1 with
             | inl e => inl (TransportError e)
             | inr r => inr (Some (mkPage (path this) r (Some nextOptions) (transformer this)))
             end)
  /\ (forall url,
        next (response this) = Some url -> truthy (Some url) = true ->
        url_searchParams url = None ->
        getNextPage this net = (inl (InvalidURL url), net)).
Proof.
  split; [|split].
  - unfold Pagination.getNextPage.
    destruct (next (response this)) as [[|c u]|]; simpl; done.
  - intros url ps Hn Ht Hu nextOptions. unfold Pagination.getNextPage. rewrite Hn.
    destruct url as [|c u]; [discriminate|]. rewrite Hu. fold nextOptions.
    pose proof (get_calls (path this) (Some nextOptions) net) as (Hc & Hr & _).
    destruct (get client_get _ _ net) as [[e|r] net1]; simpl in *;
      rewrite <- Hr; done.
  - intros url Hn Ht Hu. unfold Pagination.getNextPage. rewrite Hn.
    destruct url as [|c u]; [discriminate|]. by rewrite Hu.
Qed.

End Pages.

Lemma fromEntries_snoc (entries : list (string * string)) (k v : string) :
  fromEntries (entries ++ [(k, v)]) = <[k := Some v]> (fromEntries entries).
Proof. unfold fromEntries. by rewrite fold_left_app. Qed.

Lemma fromEntries_absent (entries : list (string * string)) (k : string) :
  k ∉ entries.*1 -> fromEntries entries !! k = None.
Proof.
  induction entries as [|[k' v'] entries IH] using rev_ind; [done|].
  rewrite fmap_app, not_elem_of_app. simpl. intros [Hk Hk'].
  rewrite fromEntries_snoc, lookup_insert_ne; [auto|].
  intros ->. apply Hk', list_elem_of_singleton. done.
Qed.

(** The transform survives two page turns: with [Demo.wrap] attached to the
    first page, the third page's items are the wrapped raw items of the
    third response. *)
Lemma transform_propagation_witness :
  exists (Q : @Pagination.Page Demo.Json unit (PagePaginatedResponse Demo.Json)) net',
    getNextPages Demo.url_searchParams Demo.scripted_get 2
      (mkPage "/v1/stores/" Demo.page1 None (Some Demo.wrap))
      (mkNet [Demo.page_mid; Demo.page2] [])
    = (inr (Some Q), net')
    /\ getItems Q = [Demo.wrap (Demo.JNum 2)]
    /\ response Q = Demo.page2.
Proof.
  set (P := mkPage "/v1/stores/" Demo.page1 None (Some Demo.wrap)).
  set (net := mkNet [Demo.page_mid; Demo.page2] []).
  destruct (getNextPages Demo.url_searchParams Demo.scripted_get 2 P net)
    as [[e|[Q|]] net'] eqn:E; try (vm_compute in E; discriminate).
  exists Q, net'.
  destruct (transform_propagation Demo.url_searchParams Demo.scripted_get 2 P Q net net' E)
    as (_ & H & _).
  assert (response Q = Demo.page2) as HQ by (injection E as <- _; reflexivity).
  split; [done|]. split; [|done]. rewrite H, HQ. reflexivity.
Defined.

(** Query replacement: a page fetched with [{ query: { a: "1" }, headers }]
    whose [next] is [...?b=2] asks for [{ query: { b: "2" }, headers }]. *)
Lemma getNextPage_request_witness :
  let this := mkPage "/v1/stores/" Demo.page_b (Some Demo.options_a) None in
  let net := mkNet [Demo.page2] [] in
  exists opts,
    calls (getNextPage Demo.url_searchParams Demo.scripted_get this net).2
    = [("/v1/stores/", Some opts)]
    /\ query opts = Some {[ "b" := Some "2" ]}
    /\ query opts ≫= (.!! "a") = None
    /\ headers opts = headers Demo.options_a.
Proof.
  intros this net.
  destruct (getNextPage_request Demo.url_searchParams Demo.scripted_get this net)
    as (_ & H & _).
  destruct (H "https://api.swarmnode.ai/v1/stores/?b=2" [("b", "2")] eq_refl eq_refl eq_refl)
    as (Hc & Hq & _ & Hh & _).
  eexists. split; [exact Hc|]. split; [exact Hq|]. split; [|exact Hh].
  rewrite Hq. simpl. apply fromEntries_absent. simpl.
  apply not_elem_of_cons. split; [discriminate|apply not_elem_of_nil].
Defined.

(** C5 as stated fails when [next] is the empty string: it is not null,
    yet the call resolves to null and the transport sees no request. *)
Lemma getNextPage_empty_next_counterexample :
  let this := mkPage (Signal := unit) "/v1/stores/" Demo.page_empty_next None None in
  let net := mkNet [Demo.page2] [] in
  next (response this) <> None
  /\ getNextPage Demo.url_searchParams Demo.scripted_get this net = (inr None, net)
  /\ calls (getNextPage Demo.url_searchParams Demo.scripted_get this net).2 = [].
Proof. repeat split; done. Qed.

(** C1 on a chain of two pages, the first holding item 1 and the second
    item 2 (for [Page] and for [CursorPage]): the traversal fetches the
    second page, ends without error, and has yielded item 1 twice, where the
    concatenation of the pages' items is item 1 followed by item 2. *)
Theorem asyncIterator_repeats_first_page :
  let page := mkPage (Signal := unit) "/v1/stores/" Demo.page1 None None in
  let cursor := mkPage (Signal := unit) "/v1/stores/" Demo.cursor1 None None in
  let run := asyncIterator Demo.url_searchParams Demo.scripted_get 5 page (mkNet [Demo.page2] []) in
  let crun :=
    asyncIterator Demo.url_searchParams Demo.scripted_get 5 cursor (mkNet [Demo.cursor2] []) in
  run.1 = ([Demo.JNum 1; Demo.JNum 1], Done)
  /\ crun.1 = ([Demo.JNum 1; Demo.JNum 1], Done)
  /\ length (calls run.2) = 1 /\ length (calls crun.2) = 1
  /\ results Demo.page1 ++ results Demo.page2 = [Demo.JNum 1; Demo.JNum 2]
  /\ results Demo.cursor1 ++ results Demo.cursor2 = [Demo.JNum 1; Demo.JNum 2].
Proof. repeat split; reflexivity. Qed.

End PaginationSpec.

(** ** Streaming transport *)

Module StreamingSpec.

Import Streaming.

#[local] Arguments ws_emit : simpl never.
#[local] Arguments ws_close : simpl never.

#[local] Ltac finish :=
  repeat split; intros; auto; try lia; try done; try congruence.

Section Listen.

Context {JsValue JsError : Type}.
Variable baseURL : string.
Variable JSON_parse : string -> JsError + JsValue.
Variable path : string.
Variable options : WebSocketOptions.

#[local] Abbreviation Listen := (@Listen JsValue JsError).
#[local] Abbreviation listen_tick := (@listen_tick JsValue JsError options).
#[local] Abbreviation listen_step := (listen_step JSON_parse options).
#[local] Abbreviation listen_run := (listen_run baseURL JSON_parse path options).
#[local] Abbreviation handleWebSocketClose := (handleWebSocketClose JSON_parse).
#[local] Abbreviation listen_inv := (@listen_inv JsValue JsError options).

Lemma ws_emit_close_calls (ev : @WsEvent JsError) (ws : WebSocket) :
  close_calls (ws_emit ev ws) = close_calls ws.
Proof. unfold ws_emit. destruct ev; try done. by case_decide. Qed.

Lemma ws_emit_closing (ev : @WsEvent JsError) (ws : WebSocket) :
  readyState ws = CLOSING \/ readyState ws = CLOSED ->
  readyState (ws_emit ev ws) = CLOSING \/ readyState (ws_emit ev ws) = CLOSED.
Proof.
  intros H. unfold ws_emit. destruct ev; simpl; auto.
  case_decide as Hc; [|done]. rewrite Hc in H. by destruct H.
Qed.

Lemma ws_close_closing (ws : WebSocket) :
  readyState (ws_close ws) = CLOSING \/ readyState (ws_close ws) = CLOSED.
Proof. unfold ws_close. simpl. case_decide; auto. Qed.

Lemma listen_tick_inv (deadline t : Z) (st : Listen) :
  listen_inv deadline st -> listen_inv deadline (listen_tick t st).
Proof.
  intros H. unfold Streaming.listen_tick.
  destruct (l_timer st) as [|d|] eqn:Et; try done.
  case_decide; [|done].
  destruct H as [(_ & Hp & Hc)|[(? & _)|(? & _)]]; try congruence.
  right; right. unfold listen_timeout, settle. simpl. rewrite Hp, Hc.
  repeat split; auto using ws_close_closing. case_decide; auto.
Qed.

Lemma listen_on_socket (ev : WsEvent) (st : Listen) :
  l_socket (listen_on JSON_parse ev st) = ws_emit ev (l_socket st).
Proof. by destruct ev. Qed.

Lemma listen_on_timer (ev : WsEvent) (st : Listen) :
  l_timer (listen_on JSON_parse ev st)
  = match ev with
    | EvClose | EvError _ => clearTimeout (l_timer st)
    | _ => l_timer st
    end.
Proof. by destruct ev. Qed.

Lemma listen_on_promise (ev : WsEvent) (st : Listen) :
  promise (listen_on JSON_parse ev st)
  = match promise st, ev with
    | None, EvClose => Some (handleWebSocketClose (chunks st))
    | None, EvError error => Some (inl (connection_error error))
    | settled, _ => settled
    end.
Proof. destruct ev; simpl; by destruct (promise st). Qed.

Lemma listen_on_inv (deadline : Z) (ev : WsEvent) (st : Listen) :
  listen_inv deadline st -> listen_inv deadline (listen_on JSON_parse ev st).
Proof.
  unfold Streaming.listen_inv.
  rewrite listen_on_socket, listen_on_timer, listen_on_promise, ws_emit_close_calls.
  intros [(Ht & Hp & Hc)|[(Ht & [r Hp])|(Ht & Hp & Hc & Hr)]]; rewrite Ht, Hp.
  - destruct ev; simpl; eauto 6.
  - right; left. destruct ev; simpl; eauto.
  - right; right. destruct ev; simpl; auto using ws_emit_closing.
Qed.

Lemma listen_step_inv (deadline : Z) (st : Listen) (turn : Z * option WsEvent) :
  listen_inv deadline st -> listen_inv deadline (listen_step st turn).
Proof.
  intros H. unfold Streaming.listen_step.
  destruct turn.2; auto using listen_tick_inv, listen_on_inv.
Qed.

Lemma listen_run_inv (t0 : Z) (turns : list (Z * option WsEvent)) :
  listen_inv (t0 + timeout_of options) (listen_run t0 turns).
Proof.
  unfold Streaming.listen_run.
  assert (listen_inv (t0 + timeout_of options) (listen baseURL path options t0)) as H
    by (left; done).
  revert H. generalize (listen (JsValue := JsValue) (JsError := JsError) baseURL path options t0).
  induction turns as [|turn turns IH]; simpl; auto using listen_step_inv.
Qed.

Lemma listen_tick_chunks (t : Z) (st : Listen) : chunks (listen_tick t st) = chunks st.
Proof.
  unfold Streaming.listen_tick. destruct (l_timer st); try done. by case_decide.
Qed.

Lemma listen_run_chunks (t0 : Z) (turns : list (Z * option WsEvent)) :
  chunks (listen_run t0 turns) = listen_fragments turns.
Proof.
  unfold Streaming.listen_run.
  change (listen_fragments turns)
    with (chunks (listen (JsValue := JsValue) (JsError := JsError) baseURL path options t0)
          ++ listen_fragments turns).
  generalize (listen (JsValue := JsValue) (JsError := JsError) baseURL path options t0).
  induction turns as [|[t [ev|]] turns IH]; intros st; simpl.
  - by rewrite app_nil_r.
  - rewrite IH. unfold Streaming.listen_step; cbn [fst snd].
    destruct ev; simpl; rewrite ?listen_tick_chunks; try done.
    by rewrite <- app_assoc.
  - rewrite IH. unfold Streaming.listen_step; cbn [fst snd]. by rewrite listen_tick_chunks.
Qed.

Lemma listen_tick_settled (t : Z) (st : Listen) (r : WebSocketError + JsValue) :
  promise st = Some r -> promise (listen_tick t st) = Some r.
Proof.
  intros H. unfold Streaming.listen_tick. destruct (l_timer st); try done.
  case_decide; [|done]. simpl. by rewrite H.
Qed.

Lemma listen_step_settled (st : Listen) (turn : Z * option WsEvent) (r : WebSocketError + JsValue) :
  promise st = Some r -> promise (listen_step st turn) = Some r.
Proof.
  intros H. unfold Streaming.listen_step.
  apply (listen_tick_settled turn.1) in H.
  destruct turn.2 as [ev|]; [|done]. by rewrite listen_on_promise, H.
Qed.

Lemma listen_settled_forever (st : Listen) (more : list (Z * option WsEvent))
    (r : WebSocketError + JsValue) :
  promise st = Some r -> promise (fold_left listen_step more st) = Some r.
Proof.
  revert st. induction more as [|turn more IH]; simpl; auto using listen_step_settled.
Qed.

Lemma listen_tick_early (t deadline : Z) (st : Listen) :
  l_timer st = Armed deadline -> (t < deadline)%Z -> listen_tick t st = st.
Proof.
  intros H Ht. unfold Streaming.listen_tick. rewrite H. case_decide; [lia|done].
Qed.

Lemma listen_fragments_keep_timer (deadline : Z) (turns : list (Z * option WsEvent)) (st : Listen) :
  l_timer st = Armed deadline ->
  Forall (fun turn => (turn.1 < deadline)%Z /\ turn.2 <> Some EvClose
                      /\ forall error, turn.2 <> Some (EvError error)) turns ->
  l_timer (fold_left listen_step turns st) = Armed deadline.
Proof.
  intros Ht Hall. revert st Ht.
  induction Hall as [|[t ev] turns (Hlt & Hc & He) _ IH]; intros st Ht; [done|].
  simpl in *. apply IH. unfold Streaming.listen_step; cbn [fst snd].
  rewrite (listen_tick_early _ _ _ Ht Hlt).
  destruct ev as [ev|]; [|done]. rewrite listen_on_timer.
  destruct ev; try done. by destruct (He error).
Qed.


(** C7, amended.  When the ['close'] event finds the promise pending, the
    buffer is the fragments in arrival order and the promise is settled as
    follows: if their concatenation is the empty string (no fragment, or
    only empty ones) it is rejected with the closed-without-message error,
    which is not a parse error; otherwise the concatenation is parsed as
    one document and the promise is resolved with the decoded value, or
    rejected with the parse error when [JSON.parse] throws. *)
Theorem listen_close_outcome (t0 : Z) (turns : list (Z * option WsEvent)) (t : Z) :
  let st := listen_run t0 turns in
  let message := join (listen_fragments turns) in
  promise (listen_tick t st) = None ->
  chunks st = listen_fragments turns
  /\ promise (listen_step st (t, Some EvClose)) = Some (handleWebSocketClose (chunks st))
  /\ (listen_fragments turns = [] -> message = EmptyString)
  /\ (message = EmptyString -> handleWebSocketClose (chunks st) = inl empty_close_error)
  /\ (message <> EmptyString ->
      handleWebSocketClose (chunks st)
      = match JSON_parse message with
        | inr value => inr value
        | inl error => inl (parse_error error)
        end)
  /\ (forall error : JsError, empty_close_error <> parse_error error).
Proof.
  intros st message Hp. pose proof (listen_run_chunks t0 turns) as Hch. fold st in Hch.
  split; [done|]. split; [|split; [|split; [|split]]].
  - unfold Streaming.listen_step; cbn [fst snd]. rewrite listen_on_promise, Hp.
    by rewrite listen_tick_chunks.
  - unfold message. by intros ->.
  - rewrite Hch. unfold Streaming.handleWebSocketClose. fold message. by intros ->.
  - rewrite Hch. unfold Streaming.handleWebSocketClose. fold message.
    by destruct message.
  - done.
Qed.

End Listen.

(** The two halves of [{"a":1}], then a clean close: the promise resolves
    with the decoded object. *)
Lemma listen_close_outcome_witness :
  let turns := [(1%Z, Some (EvMessage Demo.half1)); (2%Z, Some (EvMessage Demo.half2))] in
  let st := listen_run Demo.baseURL Demo.JSON_parse "/v1/execution/abc/" (mkWsOptions None) 0 turns in
  promise (listen_step Demo.JSON_parse (mkWsOptions None) st (3%Z, Some EvClose))
  = Some (inr (Demo.JObj "a" (Demo.JNum 1))).
Proof.
  intros turns st.
  destruct (listen_close_outcome Demo.baseURL Demo.JSON_parse "/v1/execution/abc/"
              (mkWsOptions None) 0 turns 3 eq_refl) as (_ & Hp & _ & _ & Hparse & _).
  fold st in Hp, Hparse. rewrite Hp, Hparse; [reflexivity|discriminate].
Defined.

(** C7 as stated fails when the only fragment is the empty string: a
    fragment was delivered, its text is not valid JSON, and yet the promise
    is rejected with the closed-without-message error, not the parse
    error. *)
Lemma listen_empty_fragment_counterexample :
  let turns := [(1%Z, Some (EvMessage EmptyString)); (2%Z, Some EvClose)] in
  let st := listen_run Demo.baseURL Demo.JSON_parse "/v1/execution/abc/" (mkWsOptions None) 0 turns in
  listen_fragments turns = [EmptyString]
  /\ Demo.JSON_parse (join (listen_fragments turns)) = inl "SyntaxError"
  /\ promise st = Some (inl empty_close_error)
  /\ promise st <> Some (inl (parse_error "SyntaxError")).
Proof. repeat split; done. Qed.


Section Stream.

Context {JsValue JsError : Type}.
Variable baseURL : string.
Variable JSON_parse : string -> JsError + JsValue.
Variable path : string.
Variable options : WebSocketOptions.

#[local] Abbreviation Stream := (@Stream JsValue JsError).
#[local] Abbreviation Action := (@Action JsError).
#[local] Abbreviation stream := (@stream JsValue JsError).
#[local] Abbreviation start := (@start JsValue JsError baseURL path options).
#[local] Abbreviation loop := (loop JSON_parse options).
#[local] Abbreviation drive := (drive baseURL JSON_parse path options).
#[local] Abbreviation call := (call baseURL JSON_parse path options).
#[local] Abbreviation wake := (wake baseURL JSON_parse path options).
#[local] Abbreviation stream_on := (stream_on baseURL JSON_parse path options).
#[local] Abbreviation stream_timeout := (stream_timeout baseURL JSON_parse path options).
#[local] Abbreviation stream_tick := (stream_tick baseURL JSON_parse path options).
#[local] Abbreviation stream_step := (stream_step baseURL JSON_parse path options).
#[local] Abbreviation stream_run := (stream_run baseURL JSON_parse path options).
#[local] Abbreviation timed_out := (@Failed JsValue JsError (timeout_error (timeout_of options))).

(** *** Every turn is made of a few elementary moves

    A property [Q] of the generator, indexed by the fragments received so
    far, holds after a turn as soon as each elementary move preserves it. *)

Section Preservation.

Variable Q : list string -> Stream -> Prop.

Hypothesis Q_requests : forall a st reqs, Q a st -> Q a (with_requests reqs st).
Hypothesis Q_finished : forall a st,
  status st = Completed -> Q a st -> Q a (answer Finished st).
Hypothesis Q_unstarted : forall a st,
  status st = SuspendedStart -> Q a st -> Q a (answer Finished (with_status Completed st)).
Hypothesis Q_start : forall a st t,
  status st = SuspendedStart -> Q a st -> Q a (loop (start t st)).
Hypothesis Q_loop : forall a st,
  status st = SuspendedYield \/ status st = Awaiting -> Q a st -> Q a (loop st).
Hypothesis Q_return : forall a st,
  status st = SuspendedYield -> Q a st -> Q a (complete Finished st).
Hypothesis Q_fire : forall a st d,
  status st <> Awaiting -> timer st = Armed d -> Q a st -> Q a (with_timer Fired st).
Hypothesis Q_timeout : forall a st d,
  status st = Awaiting -> timer st = Armed d -> Q a st ->
  Q a (complete timed_out (with_timer Fired st)).
Hypothesis Q_emit : forall a st ws (ev : @WsEvent JsError),
  socket st = Some ws -> Q a st -> Q a (with_socket (ws_emit ev ws) st).
Hypothesis Q_push : forall a st data,
  socket st <> None -> Q a st -> Q (a ++ [data]) (with_queue (queue st ++ [data]) st).
Hypothesis Q_closed : forall a st, socket st <> None -> Q a st -> Q a (with_closed st).
Hypothesis Q_throw : forall a st e, Q a st -> Q a (throw_in_listener e st).

Lemma drive_preserves (t : Z) (reqs : list Request) (a : list string) (st : Stream) :
  Q a st -> Q a (drive t reqs st).
Proof.
  revert st. induction reqs as [|r rest IH]; intros st H; simpl; [auto|].
  destruct (status st) eqn:Es, r; auto.
  - destruct (status (loop (start t st))); auto.
  - destruct (status (loop st)); auto.
Qed.

Lemma call_preserves (t : Z) (r : Request) (a : list string) (st : Stream) :
  Q a st -> Q a (call t r st).
Proof. apply drive_preserves. Qed.

Lemma wake_preserves (t : Z) (a : list string) (st : Stream) :
  Q a st -> Q a (wake t st).
Proof.
  intros H. unfold Streaming.wake. destruct (status st) eqn:Es; auto.
  destruct (status (loop st)); auto using drive_preserves.
Qed.

Lemma stream_tick_preserves (t : Z) (a : list string) (st : Stream) :
  Q a st -> Q a (stream_tick t st).
Proof.
  intros H. unfold Streaming.stream_tick.
  destruct (timer st) as [|d|] eqn:Et; auto. case_decide; auto.
  unfold Streaming.stream_timeout. simpl.
  destruct (status st) eqn:Es; try (apply (Q_fire _ _ d); by rewrite ?Es).
  apply drive_preserves. by apply (Q_timeout _ _ d).
Qed.

(** The second half of a turn: what happens at [turn.1] once the timer has
    been looked after. *)
Lemma stream_act_preserves (a : list string) (st : Stream) (turn : Z * Action) :
  Q a st ->
  Q (a ++ arrivals st turn)
    match turn.2 with
    | Ws ev => stream_on turn.1 ev st
    | Call r => call turn.1 r st
    | Idle => st
    end.
Proof.
  intros H. unfold arrivals.
  destruct turn.2 as [ev|r|]; simpl.
  - unfold Streaming.stream_on.
    destruct (socket st) as [ws|] eqn:Ews; [|by rewrite app_nil_r].
    pose proof (Q_emit _ _ _ ev Ews H) as H'.
    destruct ev; rewrite ?app_nil_r; auto.
    + apply wake_preserves, (Q_push _ (with_socket _ _)); done.
    + apply wake_preserves, Q_closed; done.
  - assert (forall o : option WebSocket, match o with Some _ | None => @nil string end = [])
      as -> by by intros [].
    rewrite app_nil_r. by apply call_preserves.
  - assert (forall o : option WebSocket, match o with Some _ | None => @nil string end = [])
      as -> by by intros [].
    by rewrite app_nil_r.
Qed.

Lemma stream_step_preserves (a : list string) (st : Stream) (turn : Z * Action) :
  Q a st -> Q (a ++ arrivals (stream_tick turn.1 st) turn) (stream_step st turn).
Proof.
  intros H. apply (stream_tick_preserves turn.1) in H.
  by apply stream_act_preserves.
Qed.

(** A property that presupposes the socket sees every fragment of a run. *)
Lemma stream_run_preserves (turns : list (Z * Action)) (a : list string) (st : Stream) :
  (forall a st, Q a st -> socket st <> None) ->
  Q a st -> Q (a ++ fragments turns) (fold_left stream_step turns st).
Proof.
  intros Hsock. revert a st.
  induction turns as [|turn turns IH]; intros a st H; simpl.
  - by rewrite app_nil_r.
  - pose proof (stream_step_preserves a st turn H) as H'.
    pose proof (Hsock _ _ (stream_tick_preserves turn.1 _ _ H)) as Hs.
    apply IH in H'. revert H'. unfold arrivals, fragments. simpl.
    destruct (socket (stream_tick turn.1 st)); [|done].
    destruct turn.2 as [[]| |]; simpl; rewrite <- ?app_assoc, ?app_nil_r; done.
Qed.

End Preservation.

(** The same for a property that does not mention the fragments. *)
Lemma stream_run_invariant (P : Stream -> Prop) (turns : list (Z * Action)) (st : Stream) :
  (forall st reqs, P st -> P (with_requests reqs st)) ->
  (forall st, status st = Completed -> P st -> P (answer Finished st)) ->
  (forall st, status st = SuspendedStart -> P st -> P (answer Finished (with_status Completed st))) ->
  (forall st t, status st = SuspendedStart -> P st -> P (loop (start t st))) ->
  (forall st, status st = SuspendedYield \/ status st = Awaiting -> P st -> P (loop st)) ->
  (forall st, status st = SuspendedYield -> P st -> P (complete Finished st)) ->
  (forall st d, status st <> Awaiting -> timer st = Armed d -> P st -> P (with_timer Fired st)) ->
  (forall st d, status st = Awaiting -> timer st = Armed d -> P st ->
     P (complete timed_out (with_timer Fired st))) ->
  (forall st ws (ev : @WsEvent JsError),
     socket st = Some ws -> P st -> P (with_socket (ws_emit ev ws) st)) ->
  (forall st data, socket st <> None -> P st -> P (with_queue (queue st ++ [data]) st)) ->
  (forall st, socket st <> None -> P st -> P (with_closed st)) ->
  (forall st e, P st -> P (throw_in_listener e st)) ->
  P st -> P (fold_left stream_step turns st).
Proof.
  intros H1 H2 H3 H4 H5 H6 H7 H8 H9 H10 H11 H12. revert st.
  induction turns as [|turn turns IH]; intros st H; simpl; [done|].
  apply IH.
  apply (stream_step_preserves (fun _ => P)) with (a := []); auto.
Qed.

(** *** Teardown *)

Lemma ws_emit_closed (ev : @WsEvent JsError) (ws : WebSocket) :
  readyState ws = CLOSED -> readyState (ws_emit ev ws) = CLOSED.
Proof.
  intros H. unfold ws_emit. destruct ev; simpl; auto.
  case_decide as Hc; [congruence|done].
Qed.

Lemma torn_down_complete (o : Output) (st : Stream) (ws : WebSocket) :
  socket st = Some ws -> close_calls ws = 0 -> torn_down (complete o st).
Proof.
  unfold torn_down, complete, teardown. intros Ews Hz. rewrite Ews.
  case_decide as Hc; simpl; rewrite ?Ews; simpl.
  - finish.
  - finish; auto using ws_close_closing;
      try (unfold ws_close in *; simpl in *; lia); case_decide; auto.
Qed.

Lemma torn_down_loop (st : Stream) (ws : WebSocket) :
  socket st = Some ws -> close_calls ws = 0 -> torn_down (loop st).
Proof.
  intros Ews Hz. unfold Streaming.loop.
  destruct (isConnectionClosed st); [by eapply torn_down_complete|].
  destruct (queue st) as [|m rest].
  - destruct (timer st); try by eapply torn_down_complete.
    + unfold torn_down. simpl. rewrite Ews. finish.
    + unfold torn_down. simpl. rewrite Ews. finish.
  - destruct (JSON_parse m).
    + by apply (torn_down_complete _ (with_queue rest st) ws).
    + unfold torn_down. simpl. rewrite Ews. finish.
Qed.

Lemma torn_down_running (st : Stream) :
  torn_down st -> status st = SuspendedYield \/ status st = Awaiting ->
  exists ws, socket st = Some ws /\ close_calls ws = 0.
Proof.
  unfold torn_down. intros H Hs. destruct (socket st) as [ws|].
  - exists ws. split; [done|]. apply H. destruct Hs as [-> | ->]; done.
  - destruct H as [H|H], Hs as [Hs|Hs]; congruence.
Qed.

Lemma torn_down_run (turns : list (Z * Action)) : torn_down (stream_run turns).
Proof.
  unfold Streaming.stream_run. apply stream_run_invariant; try done.
  - intros st Hs H. unfold torn_down in *. simpl.
    destruct (socket st); [tauto|auto].
  - intros st t Hs H. by apply (torn_down_loop _ (createWebSocket baseURL path)).
  - intros st Hs H. destruct (torn_down_running st H Hs) as (ws & Hws & Hz).
    by apply (torn_down_loop _ ws).
  - intros st Hs H. destruct (torn_down_running st H (or_introl Hs)) as (ws & Hws & Hz).
    by apply (torn_down_complete _ _ ws).
  - intros st d Hs Ht H. destruct (torn_down_running st H (or_intror Hs)) as (ws & Hws & Hz).
    by apply (torn_down_complete _ (with_timer Fired st) ws).
  - intros st ws ev Hws H. unfold torn_down in *. rewrite Hws in H. simpl.
    rewrite ws_emit_close_calls. destruct H as (? & ? & ? & Hc).
    repeat split; auto.
    + apply ws_emit_closing. by apply Hc.
    + intros Hz. apply ws_emit_closed. by apply Hc.
  - by left.
Qed.

(** *** What one round of the loop does *)

Lemma complete_spec (o : Output) (st : Stream) :
  queue (complete o st) = queue st
  /\ timer (complete o st) = timer st
  /\ status (complete o st) = Completed
  /\ outputs (complete o st) = outputs st ++ [o]
  /\ (socket st <> None -> socket (complete o st) <> None).
Proof.
  unfold complete, teardown. destruct (socket st) as [ws|] eqn:Ews; [|done].
  case_decide; simpl; rewrite ?Ews; finish.
Qed.

Lemma loop_spec (st : Stream) :
  timer (loop st) = timer st
  /\ (socket st <> None -> socket (loop st) <> None)
  /\ ((isConnectionClosed st = true
       /\ status (loop st) = Completed
       /\ outputs (loop st) = outputs st ++ [Finished]
       /\ queue (loop st) = queue st)
      \/ (exists m rest v,
            isConnectionClosed st = false /\ queue st = m :: rest
            /\ JSON_parse m = inr v
            /\ status (loop st) = SuspendedYield
            /\ outputs (loop st) = outputs st ++ [Yielded v]
            /\ queue (loop st) = rest)
      \/ (exists m rest e,
            isConnectionClosed st = false /\ queue st = m :: rest
            /\ JSON_parse m = inl e
            /\ status (loop st) = Completed
            /\ outputs (loop st) = outputs st ++ [Failed (parse_error e)]
            /\ queue (loop st) = rest)
      \/ (isConnectionClosed st = false /\ queue st = [] /\ timer st = Fired
          /\ status (loop st) = Completed
          /\ outputs (loop st) = outputs st ++ [timed_out]
          /\ queue (loop st) = [])
      \/ (isConnectionClosed st = false /\ queue st = [] /\ timer st <> Fired
          /\ status (loop st) = Awaiting
          /\ outputs (loop st) = outputs st
          /\ queue (loop st) = [])).
Proof.
  unfold Streaming.loop.
  destruct (isConnectionClosed st) eqn:Ec.
  { destruct (complete_spec Finished st) as (? & ? & ? & ? & ?).
    split; [done|]. split; [done|]. left. done. }
  destruct (queue st) as [|m rest] eqn:Eq.
  - destruct (timer st) eqn:Et.
    + simpl. rewrite Et, Eq. split; [done|]. split; [done|]. do 4 right. done.
    + simpl. rewrite Et, Eq. split; [done|]. split; [done|]. do 4 right. done.
    + destruct (complete_spec timed_out st) as (Hq & ? & ? & ? & ?).
      rewrite Eq in Hq. split; [congruence|]. split; [done|].
      do 3 right. left. done.
  - destruct (JSON_parse m) as [e|v] eqn:Ep.
    + destruct (complete_spec (Failed (parse_error e)) (with_queue rest st))
        as (? & ? & ? & ? & ?).
      split; [done|]. split; [done|]. right; right; left. by exists m, rest, e.
    + simpl. split; [done|]. split; [done|]. right; left. by exists m, rest, v.
Qed.

(** *** The one timer *)

#[local] Abbreviation single_timer := (@single_timer JsValue JsError options).

Lemma timed_out_not_in (outs : list Output) (o : Output) :
  timed_out ∉ outs -> o <> timed_out -> timed_out ∉ outs ++ [o].
Proof.
  intros H Ho. rewrite not_elem_of_app. split; [done|].
  rewrite list_elem_of_singleton. congruence.
Qed.

Lemma single_timer_loop (deadline : Z) (st : Stream) :
  status st <> SuspendedStart -> single_timer deadline st -> single_timer deadline (loop st).
Proof.
  intros Hs (_ & Ht & Ho & _). unfold Streaming.single_timer.
  destruct (loop_spec st) as (-> & _ & Hcases).
  destruct Hcases as [(_ & -> & -> & _)|[(m & rest & v & _ & _ & _ & -> & -> & _)
    |[(m & rest & e & _ & _ & _ & -> & -> & _)|[(_ & _ & Hf & -> & -> & _)
    |(_ & _ & Hf & -> & -> & _)]]]];
    finish; try (apply timed_out_not_in; [by apply Ho|by intros [=]]).
  destruct Ht; congruence.
Qed.

Lemma single_timer_run (t0 : Z) (turns : list (Z * Action)) :
  single_timer (t0 + timeout_of options) (stream_run ((t0, Call Next) :: turns)).
Proof.
  unfold Streaming.stream_run. simpl.
  apply stream_run_invariant; try done.
  - intros st _ (? & ? & Ho & ?). unfold Streaming.single_timer. simpl.
    finish. apply timed_out_not_in; [by apply Ho|by intros [=]].
  - intros st Hs (? & _). done.
  - intros st t Hs (? & _). done.
  - intros st Hs H. apply single_timer_loop; [|done]. destruct Hs as [-> | ->]; done.
  - intros st Hs (? & ? & Ho & ?). unfold Streaming.single_timer.
    destruct (complete_spec Finished st) as (_ & -> & -> & -> & _).
    finish. apply timed_out_not_in; [by apply Ho|by intros [=]].
  - intros st d Hs Ht (? & ? & ? & ?). unfold Streaming.single_timer. simpl. finish.
  - intros st d Hs Ht (? & ? & ? & ?). unfold Streaming.single_timer.
    destruct (complete_spec timed_out (with_timer Fired st)) as (_ & -> & -> & -> & _).
    simpl. finish.
  - unfold Streaming.single_timer. simpl. finish. apply not_elem_of_nil.
Qed.

(** *** Fragments in, values out *)

#[local] Abbreviation Consumed := (Consumed JSON_parse).
#[local] Abbreviation fifo := (fifo JSON_parse).

Lemma yielded_app (xs ys : list (@Output JsValue JsError)) :
  yielded (xs ++ ys) = yielded xs ++ yielded ys.
Proof. unfold yielded. apply omap_app. Qed.

Lemma yielded_values (values : list JsValue) :
  yielded (JsError := JsError) (Yielded <$> values) = values.
Proof. induction values as [|v values IH]; simpl; [done|]. by f_equal. Qed.

(** An answer without a value, given when the generator is finished or
    finishes with it. *)
Lemma consumed_close (taken : list string) (outs : list Output) (s : GenStatus) (o : Output) :
  Consumed taken outs s -> yielded [o] = [] -> Consumed taken (outs ++ [o]) Completed.
Proof.
  intros H Ho. destruct H as [taken values s Hp Hs|taken values rest Hp Hr
    |taken values bad e rest Hp Hb Hr].
  - by apply consumed_done.
  - rewrite <- app_assoc. apply consumed_done; [done|]. by rewrite yielded_app, Hr, Ho.
  - rewrite <- app_assoc. simpl. apply consumed_failed; try done.
    by rewrite yielded_app, Hr, Ho.
Qed.

Lemma consumed_status (taken : list string) (outs : list Output) (s s' : GenStatus) :
  Consumed taken outs s -> s <> Completed -> s' <> Completed -> Consumed taken outs s'.
Proof. intros H Hs Hs'. destruct H; try done. by apply consumed_live. Qed.

Lemma consumed_yield (taken : list string) (outs : list Output) (s : GenStatus)
    (m : string) (v : JsValue) :
  Consumed taken outs s -> s <> Completed -> JSON_parse m = inr v ->
  Consumed (taken ++ [m]) (outs ++ [Yielded v]) SuspendedYield.
Proof.
  intros H Hs Hm. destruct H as [taken values s Hp _| |]; try done.
  change [Yielded v] with (@Yielded JsValue JsError <$> [v]). rewrite <- fmap_app.
  apply consumed_live; [|done]. apply Forall2_app; [done|]. by repeat constructor.
Qed.

Lemma consumed_malformed (taken : list string) (outs : list Output) (s : GenStatus)
    (m : string) (e : JsError) :
  Consumed taken outs s -> s <> Completed -> JSON_parse m = inl e ->
  Consumed (taken ++ [m]) (outs ++ [Failed (parse_error e)]) Completed.
Proof.
  intros H Hs Hm. destruct H as [taken values s Hp _| |]; try done.
  by apply consumed_failed.
Qed.

Lemma fifo_loop (received : list string) (st : Stream) :
  status st <> Completed -> fifo received st -> fifo received (loop st).
Proof.
  intros Hs (Hsock & Hs' & taken & Hr & Hc). unfold Streaming.fifo.
  destruct (loop_spec st) as (_ & Hsock' & Hcases).
  split; [auto|].
  destruct Hcases as [(_ & -> & -> & ->)|[(m & rest & v & _ & Hq & Hm & -> & -> & ->)
    |[(m & rest & e & _ & Hq & Hm & -> & -> & ->)|[(_ & Hq & _ & -> & -> & ->)
    |(_ & Hq & _ & -> & -> & ->)]]]]; (split; [done|]).
  - exists taken. split; [done|]. by eapply consumed_close.
  - exists (taken ++ [m]). rewrite Hr, Hq, <- app_assoc. split; [done|].
    by eapply consumed_yield.
  - exists (taken ++ [m]). rewrite Hr, Hq, <- app_assoc. split; [done|].
    by eapply consumed_malformed.
  - exists taken. rewrite Hr, Hq. split; [done|]. by eapply consumed_close.
  - exists taken. rewrite Hr, Hq. split; [done|]. by eapply consumed_status.
Qed.

Lemma fifo_complete (received : list string) (st : Stream) (o : Output) :
  yielded [o] = [] -> fifo received st -> fifo received (complete o st).
Proof.
  intros Ho (Hsock & Hs' & taken & Hr & Hc). unfold Streaming.fifo.
  destruct (complete_spec o st) as (-> & _ & -> & -> & Hsock').
  split; [auto|]. split; [done|]. exists taken. split; [done|]. by eapply consumed_close.
Qed.

Lemma fifo_run (t0 : Z) (turns : list (Z * Action)) :
  fifo (fragments turns) (stream_run ((t0, Call Next) :: turns)).
Proof.
  unfold Streaming.stream_run. simpl.
  change (fragments turns) with ([] ++ fragments turns).
  apply (stream_run_preserves fifo).
  - by intros a st reqs H.
  - intros a st Hs (? & ? & taken & ? & Hc). unfold Streaming.fifo. simpl.
    split; [done|]. split; [done|]. exists taken. split; [done|].
    rewrite Hs in Hc |- *. by eapply consumed_close.
  - intros a st Hs (? & ? & _). done.
  - intros a st t Hs (? & ? & _). done.
  - intros a st Hs H. apply fifo_loop; [|done]. destruct Hs as [-> | ->]; done.
  - intros a st Hs H. by apply fifo_complete.
  - by intros a st d Hs Ht H.
  - intros a st d Hs Ht H.
    apply (fifo_complete _ (with_timer Fired st)); [done|exact H].
  - by intros a st ws ev Hws (? & ? & ?).
  - intros a st data Hs (? & ? & taken & -> & Hc). unfold Streaming.fifo. simpl.
    split; [done|]. split; [done|]. exists taken. by rewrite app_assoc.
  - by intros a st Hs H.
  - by intros a st e H.
  - by intros a st (? & _).
  - unfold Streaming.fifo. simpl. split; [done|]. split; [done|]. exists [].
    split; [done|]. by apply (consumed_live _ [] []).
Qed.

(** *** Runs, one turn at a time *)

Lemma stream_run_snoc (turns : list (Z * Action)) (turn : Z * Action) :
  stream_run (turns ++ [turn]) = stream_step (stream_run turns) turn.
Proof. unfold Streaming.stream_run. by rewrite fold_left_app. Qed.

Lemma stream_step_idle (st : Stream) (t : Z) : stream_step st (t, Idle) = stream_tick t st.
Proof. done. Qed.

Lemma drive_completed (t : Z) (reqs : list Request) (st : Stream) :
  status st = Completed -> status (drive t reqs st) = Completed.
Proof.
  revert st. induction reqs as [|r rest IH]; intros st Hs; simpl; [done|].
  rewrite Hs. by apply IH.
Qed.

(** Outside the [await] the generator has answered every request. *)
Lemma drive_idle (t : Z) (reqs : list Request) (st : Stream) :
  status (drive t reqs st) <> Awaiting -> requests (drive t reqs st) = [].
Proof.
  revert st. induction reqs as [|r rest IH]; intros st; simpl; [done|].
  destruct (status st) eqn:Es, r; simpl; rewrite ?Es; auto; try done.
  - destruct (status (loop (start t st))) eqn:E; simpl; rewrite ?E; auto; done.
  - destruct (status (loop st)) eqn:E; simpl; rewrite ?E; auto; done.
Qed.

Lemma stream_tick_idle (t : Z) (st : Stream) :
  (status st <> Awaiting -> requests st = []) ->
  status (stream_tick t st) <> Awaiting -> requests (stream_tick t st) = [].
Proof.
  intros H. unfold Streaming.stream_tick. destruct (timer st); auto.
  case_decide; auto. unfold Streaming.stream_timeout. simpl.
  destruct (status st) eqn:Es; simpl; rewrite ?Es; auto. apply drive_idle.
Qed.

Lemma wake_idle (t : Z) (st : Stream) :
  (status st <> Awaiting -> requests st = []) ->
  status (wake t st) <> Awaiting -> requests (wake t st) = [].
Proof.
  intros H. unfold Streaming.wake. destruct (status st) eqn:Es; rewrite ?Es; auto.
  destruct (status (loop st)) eqn:E; rewrite ?E; auto using drive_idle. done.
Qed.

Lemma stream_step_idle_requests (st : Stream) (turn : Z * Action) :
  (status st <> Awaiting -> requests st = []) ->
  status (stream_step st turn) <> Awaiting -> requests (stream_step st turn) = [].
Proof.
  intros H0. pose proof (stream_tick_idle turn.1 st H0) as H. unfold Streaming.stream_step.
  destruct turn.2 as [ev|r|]; [|apply drive_idle|done].
  unfold Streaming.stream_on. destruct (socket (stream_tick turn.1 st)); [|done].
  destruct ev; simpl; auto; by apply wake_idle.
Qed.

Lemma stream_run_idle (turns : list (Z * Action)) :
  status (stream_run turns) <> Awaiting -> requests (stream_run turns) = [].
Proof.
  induction turns as [|turn turns IH] using rev_ind; [done|].
  rewrite stream_run_snoc. by apply stream_step_idle_requests.
Qed.

Lemma stream_tick_early (st : Stream) (t d : Z) :
  timer st = Armed d -> (t < d)%Z -> stream_tick t st = st.
Proof.
  intros Ht Hlt. unfold Streaming.stream_tick. rewrite Ht. case_decide; [lia|done].
Qed.

Lemma stream_step_early (st : Stream) (turn : Z * Action) (d : Z) :
  timer st = Armed d -> (turn.1 < d)%Z ->
  stream_step st turn
  = match turn.2 with
    | Ws ev => stream_on turn.1 ev st
    | Call r => call turn.1 r st
    | Idle => st
    end.
Proof.
  intros Ht Hlt. unfold Streaming.stream_step. by rewrite (stream_tick_early _ _ _ Ht Hlt).
Qed.

(** Answers are only ever added at the end. *)
Lemma loop_outputs (st : Stream) : exists tail, outputs (loop st) = outputs st ++ tail.
Proof.
  destruct (loop_spec st) as (_ & _ & Hc).
  destruct Hc as [(_ & _ & -> & _)|[(? & ? & ? & _ & _ & _ & _ & -> & _)
    |[(? & ? & ? & _ & _ & _ & _ & -> & _)|[(_ & _ & _ & _ & -> & _)
    |(_ & _ & _ & _ & -> & _)]]]]; eauto.
  exists []. by rewrite app_nil_r.
Qed.

Lemma stream_step_outputs (st : Stream) (turn : Z * Action) :
  (exists tail, outputs (stream_tick turn.1 st) = outputs st ++ tail)
  /\ (exists tail, outputs (stream_step st turn) = outputs (stream_tick turn.1 st) ++ tail).
Proof.
  assert (forall base (st1 st2 : Stream),
            (exists tail, outputs st1 = base ++ tail) ->
            (exists tail, outputs st2 = outputs st1 ++ tail) ->
            exists tail, outputs st2 = base ++ tail) as Htrans.
  { intros base st1 st2 [t1 H1] [t2 H2]. exists (t1 ++ t2). by rewrite H2, H1, app_assoc. }
  assert (forall st : Stream, exists tail, outputs st = outputs st ++ tail) as Hrefl.
  { intros st'. exists []. by rewrite app_nil_r. }
  split.
  - apply (stream_tick_preserves (fun _ st' => exists tail, outputs st' = outputs st ++ tail))
      with (a := []); [..|by apply Hrefl].
    + by intros _ st' reqs' H'.
    + intros _ st' _ H. apply (Htrans _ st'); [done|]. by exists [Finished].
    + intros _ st' _ H. apply (Htrans _ st'); [done|]. by exists [Finished].
    + intros _ st' t' _ H. apply (Htrans _ st'); [done|]. apply (loop_outputs (start t' st')).
    + intros _ st' _ H. apply (Htrans _ st'); [done|]. apply loop_outputs.
    + intros _ st' _ H. apply (Htrans _ st'); [done|].
      destruct (complete_spec Finished st') as (_ & _ & _ & -> & _). eauto.
    + by intros _ st' d _ _ H.
    + intros _ st' d _ _ H. apply (Htrans _ st'); [done|].
      destruct (complete_spec timed_out (with_timer Fired st')) as (_ & _ & _ & -> & _).
      eauto.
  - unfold Streaming.stream_step. generalize (stream_tick turn.1 st) as st1. intros st1.
    apply (stream_act_preserves (fun _ st' => exists tail, outputs st' = outputs st1 ++ tail))
      with (a := []); [..|by apply Hrefl].
    + by intros _ st' reqs' H'.
    + intros _ st' _ H. apply (Htrans _ st'); [done|]. by exists [Finished].
    + intros _ st' _ H. apply (Htrans _ st'); [done|]. by exists [Finished].
    + intros _ st' t' _ H. apply (Htrans _ st'); [done|]. apply (loop_outputs (start t' st')).
    + intros _ st' _ H. apply (Htrans _ st'); [done|]. apply loop_outputs.
    + intros _ st' _ H. apply (Htrans _ st'); [done|].
      destruct (complete_spec Finished st') as (_ & _ & _ & -> & _). eauto.
    + by intros _ st' ws ev _ H.
    + by intros _ st' data _ H.
    + by intros _ st' _ H.
    + by intros _ st' e H.
Qed.

Lemma drive_outputs (t : Z) (reqs : list Request) (st : Stream) :
  exists tail, outputs (drive t reqs st) = outputs st ++ tail.
Proof.
  assert (forall base (st1 st2 : Stream),
            (exists tail, outputs st1 = base ++ tail) ->
            (exists tail, outputs st2 = outputs st1 ++ tail) ->
            exists tail, outputs st2 = base ++ tail) as Htrans.
  { intros base st1 st2 [t1 H1] [t2 H2]. exists (t1 ++ t2). by rewrite H2, H1, app_assoc. }
  apply (drive_preserves (fun _ st' => exists tail, outputs st' = outputs st ++ tail))
    with (a := []); [..|exists []; by rewrite app_nil_r].
  - by intros _ st' reqs' H'.
  - intros _ st' _ H. apply (Htrans _ st'); [done|]. by exists [Finished].
  - intros _ st' _ H. apply (Htrans _ st'); [done|]. by exists [Finished].
  - intros _ st' t' _ H. apply (Htrans _ st'); [done|]. apply (loop_outputs (start t' st')).
  - intros _ st' _ H. apply (Htrans _ st'); [done|]. apply loop_outputs.
  - intros _ st' _ H. apply (Htrans _ st'); [done|].
    destruct (complete_spec Finished st') as (_ & _ & _ & -> & _). eauto.
Qed.

(** Nothing but the timer's own callback touches the timer of a started
    generator. *)
Lemma stream_act_timer (st : Stream) (turn : Z * Action) :
  status st <> SuspendedStart ->
  let st' := match turn.2 with
             | Ws ev => stream_on turn.1 ev st
             | Call r => call turn.1 r st
             | Idle => st
             end in
  status st' <> SuspendedStart /\ timer st' = timer st.
Proof.
  intros Hs.
  apply (stream_act_preserves
           (fun _ st' => status st' <> SuspendedStart /\ timer st' = timer st))
    with (a := []); [..|done].
  - by intros _ st' reqs' H'.
  - by intros _ st' _ H.
  - by intros _ st' Hs' [H _].
  - by intros _ st' t' Hs' [H _].
  - intros _ st' Hs' [_ <-]. destruct (loop_spec st') as (-> & _ & Hc). split; [|done].
    destruct Hc as [(_ & -> & _)|[(? & ? & ? & _ & _ & _ & -> & _)
      |[(? & ? & ? & _ & _ & _ & -> & _)|[(_ & _ & _ & -> & _)|(_ & _ & _ & -> & _)]]]];
      done.
  - intros _ st' Hs' [_ <-]. by destruct (complete_spec Finished st') as (_ & -> & -> & _).
  - by intros _ st' ws ev _ H.
  - by intros _ st' data _ H.
  - by intros _ st' _ H.
  - by intros _ st' e H.
Qed.

(** *** The claims about [stream] *)




End Stream.

(** *** Worked runs *)

#[local] Abbreviation demo_run timeout :=
  (stream_run Demo.baseURL Demo.JSON_parse "/v1/execution-stream/abc/" (mkWsOptions timeout)).
#[local] Abbreviation demo_step timeout :=
  (stream_step Demo.baseURL Demo.JSON_parse "/v1/execution-stream/abc/" (mkWsOptions timeout)).


(** A malformed fragment after a good one: the first value stands, the
    sequence then fails with the parse error, and the socket is closed. *)
Example stream_malformed_fragment :
  let st := demo_run None [(0%Z, Call Next); (5%Z, Ws EvOpen);
                           (10%Z, Ws (EvMessage Demo.doc_x1)); (20%Z, Call Next);
                           (30%Z, Ws (EvMessage "oops")); (40%Z, Ws (EvMessage Demo.doc_x2));
                           (50%Z, Call Next)] in
  outputs st = [Yielded (Demo.JObj "x" (Demo.JNum 1)); Failed (parse_error "SyntaxError"); Finished]
  /\ status st = Completed
  /\ (close_calls <$> socket st) = Some 1.
Proof. repeat split; reflexivity. Qed.


(** Normal exhaustion: the ['close'] event ends the wait, and [close()] is
    not called on the socket, which is closed already. *)
Example stream_exhaustion :
  let st := demo_run None [(0%Z, Call Next); (5%Z, Ws EvOpen);
                           (10%Z, Ws (EvMessage Demo.doc_x1)); (20%Z, Call Next);
                           (30%Z, Ws EvClose)] in
  outputs st = [Yielded (Demo.JObj "x" (Demo.JNum 1)); Finished]
  /\ status st = Completed
  /\ (readyState <$> socket st) = Some CLOSED
  /\ (close_calls <$> socket st) = Some 0.
Proof. repeat split; reflexivity. Qed.



(** C2 on a slow consumer: the second fragment arrives, and then the
    ['close'] event, while the consumer is still busy with the first value;
    when it asks again the sequence ends, with the second fragment, a valid
    document, left in the queue. *)
Theorem stream_drops_queued_on_close :
  let st := demo_run None [(0%Z, Call Next); (10%Z, Ws (EvMessage Demo.doc_x1));
                           (20%Z, Ws (EvMessage Demo.doc_x2)); (30%Z, Ws EvClose);
                           (40%Z, Call Next)] in
  outputs st = [Yielded (Demo.JObj "x" (Demo.JNum 1)); Finished]
  /\ status st = Completed
  /\ isConnectionClosed st = true
  /\ queue st = [Demo.doc_x2]
  /\ Demo.JSON_parse Demo.doc_x2 = inr (Demo.JObj "x" (Demo.JNum 2)).
Proof. repeat split; reflexivity. Qed.

(** C4 on a connection that fails while the consumer waits: the error
    thrown by the ['error'] listener escapes from the event callback; the
    generator is still waiting and the consumer has been told nothing.  If
    nothing else happens, what the consumer gets in the end is the timeout
    error, not the stream error. *)
Theorem stream_error_event_escapes :
  let st := demo_run None [(0%Z, Call Next); (5%Z, Ws EvOpen); (50%Z, Ws (EvError "ECONNRESET"))] in
  status st = Awaiting
  /\ outputs st = []
  /\ uncaught st = [stream_error "ECONNRESET"]
  /\ outputs (demo_step None st (600000%Z, Idle)) = [Failed (timeout_error 600000)].
Proof. repeat split; reflexivity. Qed.

End StreamingSpec.

(** * Further properties *)

(** ** Pagination: what a page turn keeps and what it asks for *)

Module PaginationMore.

Import Pagination.

Section Pages.

Context {JsValue Signal ApiError World Resp : Type} `{!Paginated JsValue Resp}.
Variable url_searchParams : string -> option (list (string * string)).
Variable client_get :
  string -> option (RequestOptions JsValue Signal) -> World -> (ApiError + Resp) * World.

#[local] Abbreviation Page := (@Page JsValue Signal Resp).
#[local] Abbreviation Net := (@Net JsValue Signal World).
#[local] Abbreviation getNextPage := (getNextPage url_searchParams client_get).
#[local] Abbreviation getNextPages := (getNextPages url_searchParams client_get).
#[local] Abbreviation asyncIterator_loop := (asyncIterator_loop url_searchParams client_get).
#[local] Abbreviation asyncIterator := (asyncIterator url_searchParams client_get).

(** What a call of [getNextPage] adds to the spy's record: nothing, or one
    request to the page's own path. *)
Lemma getNextPage_calls (this : Page) (net : Net) :
  calls (getNextPage this net).2 = calls net
  \/ exists opts, calls (getNextPage this net).2 = calls net ++ [(path this, Some opts)].
Proof.
  unfold Pagination.getNextPage.
  destruct (next (response this)) as [[|c u]|]; auto.
  destruct (url_searchParams (String c u)) as [ps|]; auto.
  right. eexists.
  pose proof (PaginationSpec.get_calls client_get (path this)
                (Some (with_query (spread (options this)) (fromEntries ps))) net)
    as (Hc & _ & _).
  destruct (get client_get _ _ net) as [[e|r] net1]; exact Hc.
Qed.

Lemma getNextPage_Some_options (this next_page : Page) (net net' : Net) :
  getNextPage this net = (inr (Some next_page), net') ->
  path next_page = path this
  /\ transformer next_page = transformer this
  /\ (exists q, options next_page = Some (with_query (spread (options this)) q))
  /\ exists opts, calls net' = calls net ++ [(path this, Some opts)].
Proof.
  unfold Pagination.getNextPage.
  destruct (next (response this)) as [[|c u]|]; try discriminate.
  destruct (url_searchParams (String c u)) as [ps|]; try discriminate.
  unfold get.
  destruct (client_get _ _ (world net)) as [[e|r] w] eqn:E; try discriminate.
  intros [= <- <-]. simpl. eauto 6.
Qed.

Lemma getNextPage_not_null (this : Page) (net net' : Net) :
  hasNextPage this = true -> getNextPage this net <> (inr None, net').
Proof.
  unfold hasNextPage. intros Ht.
  apply PaginationSpec.truthy_Some in Ht as (c & u & Hn).
  unfold Pagination.getNextPage. rewrite Hn.
  destruct (url_searchParams (String c u)); [|done].
  destruct (get client_get _ _ net) as [[e|r] net1]; done.
Qed.

(** X1.  [hasNextPage] and [getNextPage] agree: when [hasNextPage] is false,
    [getNextPage] resolves to null and leaves the transport alone; when it
    is true, [getNextPage] never resolves to null, and the page it resolves
    to has cost exactly one request. *)
Theorem hasNextPage_getNextPage (this : Page) (net : Net) :
  (hasNextPage this = false -> getNextPage this net = (inr None, net))
  /\ (hasNextPage this = true ->
      (forall net', getNextPage this net <> (inr None, net'))
      /\ forall next_page net',
           getNextPage this net = (inr (Some next_page), net') ->
           length (calls net') = S (length (calls net))).
Proof.
  unfold hasNextPage. split.
  - unfold Pagination.getNextPage.
    destruct (next (response this)) as [[|c u]|]; simpl; done.
  - intros Ht. split.
    + intros net'. by apply getNextPage_not_null.
    + intros next_page net' H.
      apply getNextPage_Some_options in H as (_ & _ & _ & opts & ->).
      rewrite length_app. simpl. lia.
Qed.

(** [Object.fromEntries] keeps, for each key, the value of its last
    entry. *)
Lemma fromEntries_lookup (entries : list (string * string)) (k : string) :
  fromEntries entries !! k
  = (fun kv : string * string => Some kv.2) <$> last (filter (fun kv => kv.1 = k) entries).
Proof.
  induction entries as [|[k' v'] entries IH] using rev_ind; [done|].
  rewrite PaginationSpec.fromEntries_snoc, filter_app.
  destruct (decide (k' = k)) as [->|Hne].
  - rewrite lookup_insert_eq, filter_cons_True, filter_nil by done.
    by rewrite last_snoc.
  - rewrite lookup_insert_ne, filter_cons_False, filter_nil by done.
    by rewrite app_nil_r.
Qed.

(** X2.  The query of a next-page request is read off the [next] address
    alone: it maps every key to the value of that key's last occurrence
    there, and has no other key, whatever the query of the current page
    was. *)
Theorem next_query_last_value_wins (this : Page) (net : Net)
    (url : string) (searchParams : list (string * string)) :
  next (response this) = Some url -> truthy (Some url) = true ->
  url_searchParams url = Some searchParams ->
  exists opts q,
    calls (getNextPage this net).2 = calls net ++ [(path this, Some opts)]
    /\ query opts = Some q
    /\ forall k,
         q !! k = (fun kv : string * string => Some kv.2)
                    <$> last (filter (fun kv => kv.1 = k) searchParams).
Proof.
  intros Hn Ht Hu.
  exists (with_query (spread (options this)) (fromEntries searchParams)),
    (fromEntries searchParams).
  split; [|split; [done|apply fromEntries_lookup]].
  unfold Pagination.getNextPage. rewrite Hn. destruct url as [|c u]; [discriminate|].
  rewrite Hu.
  pose proof (PaginationSpec.get_calls client_get (path this)
                (Some (with_query (spread (options this)) (fromEntries searchParams))) net)
    as (Hc & _ & _).
  destruct (get client_get _ _ net) as [[e|r] net1]; exact Hc.
Qed.

(** X3.  Across any number of page turns the body, headers, signal and
    timeout of the first page's options reach every later page unchanged,
    and each turn sends one request, always to the first page's path. *)
Theorem options_carried_forward (n : nat) (P Q : Page) (net net' : Net) :
  getNextPages n P net = (inr (Some Q), net') ->
  body (spread (options Q)) = body (spread (options P))
  /\ headers (spread (options Q)) = headers (spread (options P))
  /\ signal (spread (options Q)) = signal (spread (options P))
  /\ timeout (spread (options Q)) = timeout (spread (options P))
  /\ exists reqs,
       calls net' = calls net ++ reqs
       /\ length reqs = n
       /\ Forall (fun r => r.1 = path P) reqs.
Proof.
  revert Q net'. induction n as [|n IH]; simpl; intros Q net'.
  - intros [= <- <-]. repeat split; try done. exists []. by rewrite app_nil_r.
  - destruct (Pagination.getNextPages _ _ n P net) as [[e|[p|]] net1] eqn:E; try discriminate.
    intros H. destruct (IH _ _ eq_refl) as (Hb & Hh & Hs & Ht & reqs & Hc & Hl & Hall).
    pose proof (PaginationSpec.getNextPages_transformer _ _ _ _ _ _ _ E) as [Hp _].
    apply getNextPage_Some_options in H as (_ & _ & [q Ho] & opts & Hc').
    rewrite Ho. simpl. repeat split; try done.
    exists (reqs ++ [(path p, Some opts)]). rewrite Hc', Hc, app_assoc.
    split; [done|]. split; [rewrite length_app; simpl; lia|].
    apply Forall_app. split; [done|]. by repeat constructor.
Qed.

(** X4.  A traversal only ever asks for the path of the page it was started
    on, and when it ends without error after [r] requests it has gone
    round [r + 1] times, yielding the items of its starting page each
    time. *)
Theorem asyncIterator_requests (fuel : nat) (this : Page) (net : Net) :
  exists reqs,
    calls (asyncIterator fuel this net).2 = calls net ++ reqs
    /\ Forall (fun r => r.1 = path this) reqs
    /\ ((asyncIterator fuel this net).1.2 = Done ->
        (asyncIterator fuel this net).1.1
        = concat (replicate (S (length reqs)) (getItems this))).
Proof.
  unfold Pagination.asyncIterator.
  assert (forall (self : option Page) (net : Net),
            match self with Some p => path p = path this | None => True end ->
            exists reqs,
              calls (asyncIterator_loop fuel this self net).2 = calls net ++ reqs
              /\ Forall (fun r => r.1 = path this) reqs
              /\ ((asyncIterator_loop fuel this self net).1.2 = Done ->
                  (asyncIterator_loop fuel this self net).1.1
                  = concat (replicate (S (length reqs)) (getItems this)))) as Hgen.
  { clear net. induction fuel as [|fuel IH]; intros self net Hp; simpl.
    - exists []. rewrite app_nil_r. done.
    - destruct self as [p|]; [|exists []; simpl; by rewrite !app_nil_r].
      destruct (hasNextPage p) eqn:Hnext; simpl;
        [|exists []; simpl; by rewrite !app_nil_r].
      destruct (Pagination.getNextPage _ _ p net) as [[e|self'] net1] eqn:E.
      + destruct (getNextPage_calls p net) as [Hc|[opts Hc]]; rewrite E in Hc; simpl in Hc.
        * exists []. rewrite app_nil_r. done.
        * exists [(path p, Some opts)]. split; [done|]. split; [|done].
          by repeat constructor.
      + assert (match self' with Some p' => path p' = path this | None => True end
                /\ exists opts, calls net1 = calls net ++ [(path this, Some opts)])
          as [Hp' [opts Hc]].
        { destruct self' as [p'|].
          - apply getNextPage_Some_options in E as (Hpp & _ & _ & opts & Hc).
            rewrite Hp in Hc. rewrite Hpp, Hp. eauto.
          - by destruct (getNextPage_not_null p net net1 Hnext). }
        destruct (IH self' net1 Hp') as (reqs & Hc' & Hall & Hd).
        destruct (Pagination.asyncIterator_loop _ _ fuel this self' net1) as [[rest c] net2].
        simpl in *. exists ((path this, Some opts) :: reqs).
        rewrite Hc', Hc, <- app_assoc. split; [done|]. split; [by constructor|].
        intros Hdone. simpl. by rewrite (Hd Hdone). }
  apply (Hgen (Some this) net). done.
Qed.

End Pages.

(** [hasNextPage] is true of the first demo page, and its [getNextPage]
    does not resolve to null. *)
Lemma hasNextPage_getNextPage_witness :
  let this := mkPage (Signal := unit) "/v1/stores/" Demo.page1 None None in
  let net := mkNet [Demo.page2] [] in
  hasNextPage this = true
  /\ forall net', getNextPage Demo.url_searchParams Demo.scripted_get this net <> (inr None, net').
Proof.
  intros this net. split; [reflexivity|].
  destruct (hasNextPage_getNextPage Demo.url_searchParams Demo.scripted_get this net) as [_ H].
  apply H. reflexivity.
Defined.

(** With [next = ...?page=2&size=10&page=5] the request asks for page 5. *)
Lemma next_query_last_value_wins_witness :
  let this := mkPage "/v1/stores/" More.page_repeated (Some Demo.options_a) None in
  let net := mkNet [Demo.page2] [] in
  exists opts q,
    calls (getNextPage More.url_searchParams Demo.scripted_get this net).2
    = [("/v1/stores/", Some opts)]
    /\ query opts = Some q
    /\ q !! "page" = Some (Some "5") /\ q !! "size" = Some (Some "10") /\ q !! "a" = None.
Proof.
  intros this net.
  assert (next (response this)
          = Some "https://api.swarmnode.ai/v1/stores/?page=2&size=10&page=5") as Hn
    by reflexivity.
  destruct (next_query_last_value_wins More.url_searchParams Demo.scripted_get this net
              _ [("page", "2"); ("size", "10"); ("page", "5")] Hn eq_refl eq_refl)
    as (opts & q & Hc & Hq & Hk).
  exists opts, q. split; [exact Hc|]. split; [exact Hq|].
  rewrite !Hk. repeat split; reflexivity.
Defined.

(** Two page turns from a page fetched with custom headers: two requests
    to the same path, and the headers are still there. *)
Lemma options_carried_forward_witness :
  exists (Q : @Pagination.Page Demo.Json unit (PagePaginatedResponse Demo.Json)) net',
    getNextPages Demo.url_searchParams Demo.scripted_get 2
      (mkPage "/v1/stores/" Demo.page1 (Some Demo.options_a) None)
      (mkNet [Demo.page_mid; Demo.page2] [])
    = (inr (Some Q), net')
    /\ headers (spread (options Q)) = Some {[ "X-Trace" := "t" ]}
    /\ length (calls net') = 2.
Proof.
  set (P := mkPage "/v1/stores/" Demo.page1 (Some Demo.options_a) None).
  set (net := mkNet [Demo.page_mid; Demo.page2] []).
  destruct (getNextPages Demo.url_searchParams Demo.scripted_get 2 P net)
    as [[e|[Q|]] net'] eqn:E; try (vm_compute in E; discriminate).
  exists Q, net'. split; [done|].
  destruct (options_carried_forward Demo.url_searchParams Demo.scripted_get 2 P Q net net' E)
    as (_ & Hh & _ & _ & reqs & Hc & Hl & _).
  split; [exact Hh|]. rewrite Hc. simpl. exact Hl.
Defined.

(** The traversal of the two demo pages ends after one request. *)
Lemma asyncIterator_requests_witness :
  let this := mkPage (Signal := unit) "/v1/stores/" Demo.page1 None None in
  let run := asyncIterator Demo.url_searchParams Demo.scripted_get 5 this (mkNet [Demo.page2] []) in
  run.1.2 = Done
  /\ exists reqs, calls run.2 = reqs /\ length reqs = 1
                  /\ run.1.1 = concat (replicate 2 (getItems this)).
Proof.
  intros this run. split; [reflexivity|].
  destruct (asyncIterator_requests Demo.url_searchParams Demo.scripted_get 5 this
              (mkNet [Demo.page2] [])) as (reqs & Hc & _ & Hd).
  fold run in Hc, Hd. simpl in Hc. exists reqs. split; [exact Hc|].
  assert (length reqs = 1) as Hl by (rewrite <- Hc; reflexivity).
  split; [exact Hl|]. rewrite (Hd eq_refl), Hl. reflexivity.
Defined.

End PaginationMore.

(** ** Streaming: requests, endings and fragments *)

Module StreamingMore.

Import Streaming.

Section Listen.

Context {JsValue JsError : Type}.
Variable baseURL : string.
Variable JSON_parse : string -> JsError + JsValue.
Variable path : string.
Variable options : WebSocketOptions.

#[local] Abbreviation Listen := (@Listen JsValue JsError).
#[local] Abbreviation listen_tick := (@listen_tick JsValue JsError options).
#[local] Abbreviation listen_step := (listen_step JSON_parse options).
#[local] Abbreviation listen_run := (listen_run baseURL JSON_parse path options).
#[local] Abbreviation handleWebSocketClose := (handleWebSocketClose JSON_parse).

(** X5.  [listen] closes the socket itself in one case only, the timeout:
    after any sequence of events [close()] has been called once if the
    timer has fired and not at all otherwise, so neither an ['error'] event
    nor a malformed message makes [listen] close the socket. *)
Theorem listen_closes_only_on_timeout (t0 : Z) (turns : list (Z * option WsEvent)) :
  let st := listen_run t0 turns in
  close_calls (l_socket st) = match l_timer st with Fired => 1 | _ => 0 end.
Proof.
  intros st. subst st. unfold Streaming.listen_run.
  assert (close_calls (l_socket (listen (JsValue := JsValue) (JsError := JsError)
                                   baseURL path options t0))
          = match l_timer (listen (JsValue := JsValue) (JsError := JsError)
                             baseURL path options t0) with Fired => 1 | _ => 0 end) as H
    by reflexivity.
  revert H. generalize (listen (JsValue := JsValue) (JsError := JsError) baseURL path options t0).
  induction turns as [|turn turns IH]; intros st H; simpl; [done|].
  apply IH. unfold Streaming.listen_step.
  assert (close_calls (l_socket (listen_tick turn.1 st))
          = match l_timer (listen_tick turn.1 st) with Fired => 1 | _ => 0 end) as H'.
  { unfold Streaming.listen_tick. destruct (l_timer st) eqn:Et; rewrite ?Et; try done.
    case_decide; [|by rewrite Et]. unfold listen_timeout, settle, ws_close. simpl.
    by rewrite H. }
  destruct turn.2 as [ev|]; [|done].
  rewrite StreamingSpec.listen_on_socket, StreamingSpec.listen_on_timer,
    StreamingSpec.ws_emit_close_calls, H'.
  destruct ev; try done; by destruct (l_timer (listen_tick turn.1 st)).
Qed.

(** X6.  On a clean close [listen] does not see where one fragment ends and
    the next begins: two connections whose fragments concatenate to the same
    text settle their promises the same way. *)
Theorem listen_fragmentation (t0 t0' : Z) (turns turns' : list (Z * option WsEvent))
    (t t' : Z) :
  let st := listen_run t0 turns in
  let st' := listen_run t0' turns' in
  promise (listen_tick t st) = None -> promise (listen_tick t' st') = None ->
  join (listen_fragments turns) = join (listen_fragments turns') ->
  promise (listen_step st (t, Some EvClose)) = promise (listen_step st' (t', Some EvClose)).
Proof.
  intros st st' Hp Hp' Hj. unfold Streaming.listen_step. cbn [fst snd].
  rewrite !StreamingSpec.listen_on_promise, Hp, Hp', !StreamingSpec.listen_tick_chunks.
  unfold st, st'. rewrite !StreamingSpec.listen_run_chunks.
  unfold Streaming.handleWebSocketClose. by rewrite Hj.
Qed.

End Listen.

(** The two halves of [{"a":1}] and the whole document settle alike. *)
Lemma listen_fragmentation_witness :
  let opts := mkWsOptions None in
  let st := listen_run Demo.baseURL Demo.JSON_parse "/v1/execution/abc/" opts 0
              [(1%Z, Some (EvMessage Demo.half1)); (2%Z, Some (EvMessage Demo.half2))] in
  let st' := listen_run Demo.baseURL Demo.JSON_parse "/v1/execution/abc/" opts 0
               [(5%Z, Some (EvMessage Demo.doc_a1))] in
  promise (listen_step Demo.JSON_parse opts st (3%Z, Some EvClose))
  = promise (listen_step Demo.JSON_parse opts st' (9%Z, Some EvClose)).
Proof.
  intros opts st st'.
  apply (listen_fragmentation Demo.baseURL Demo.JSON_parse "/v1/execution/abc/" opts 0 0
           [(1%Z, Some (EvMessage Demo.half1)); (2%Z, Some (EvMessage Demo.half2))]
           [(5%Z, Some (EvMessage Demo.doc_a1))] 3 9); reflexivity.
Defined.

Section Stream.

Context {JsValue JsError : Type}.
Variable baseURL : string.
Variable JSON_parse : string -> JsError + JsValue.
Variable path : string.
Variable options : WebSocketOptions.

#[local] Abbreviation Stream := (@Stream JsValue JsError).
#[local] Abbreviation Action := (@Action JsError).
#[local] Abbreviation stream := (@stream JsValue JsError).
#[local] Abbreviation start := (@start JsValue JsError baseURL path options).
#[local] Abbreviation loop := (loop JSON_parse options).
#[local] Abbreviation drive := (drive baseURL JSON_parse path options).
#[local] Abbreviation call := (call baseURL JSON_parse path options).
#[local] Abbreviation wake := (wake baseURL JSON_parse path options).
#[local] Abbreviation stream_on := (stream_on baseURL JSON_parse path options).
#[local] Abbreviation stream_tick := (stream_tick baseURL JSON_parse path options).
#[local] Abbreviation stream_step := (stream_step baseURL JSON_parse path options).
#[local] Abbreviation stream_run := (stream_run baseURL JSON_parse path options).
#[local] Abbreviation timed_out := (@Failed JsValue JsError (timeout_error (timeout_of options))).
#[local] Abbreviation balanced := (@More.balanced JsValue JsError).

(** *** Every request is answered once *)

Lemma complete_requests (o : Output) (st : Stream) :
  requests (complete o st) = requests st
  /\ length (outputs (complete o st)) = S (length (outputs st))
  /\ status (complete o st) = Completed.
Proof.
  unfold complete, teardown. destruct (socket st) as [ws|]; [case_decide|]; simpl;
    rewrite length_app; simpl; repeat split; lia.
Qed.

(** One round of the loop either parks in the [await], having answered
    nothing, or answers the request being served. *)
Lemma loop_answers (st : Stream) :
  requests (loop st) = requests st
  /\ ((status (loop st) = Awaiting /\ outputs (loop st) = outputs st)
      \/ (status (loop st) <> Awaiting
          /\ length (outputs (loop st)) = S (length (outputs st)))).
Proof.
  unfold Streaming.loop.
  destruct (isConnectionClosed st).
  { destruct (complete_requests Finished st) as (Hr & Ho & Hs).
    split; [exact Hr|]. right. rewrite Hs. split; [done|exact Ho]. }
  destruct (queue st) as [|m rest].
  - destruct (timer st); [simpl; auto..|].
    destruct (complete_requests timed_out st) as (Hr & Ho & Hs).
    split; [exact Hr|]. right. rewrite Hs. split; [done|exact Ho].
  - destruct (JSON_parse m) as [e|v].
    + destruct (complete_requests (Failed (parse_error e)) (with_queue rest st))
        as (Hr & Ho & Hs).
      split; [exact Hr|]. right. rewrite Hs. split; [done|exact Ho].
    + simpl. split; [done|]. right. rewrite length_app. simpl. split; [done|lia].
Qed.

Lemma start_answers (t : Z) (st : Stream) :
  requests (start t st) = requests st /\ outputs (start t st) = outputs st.
Proof. done. Qed.

Lemma drive_answers (t : Z) (reqs : list Request) (st : Stream) :
  length (outputs (drive t reqs st)) + length (requests (drive t reqs st))
  = length (outputs st) + length reqs
  /\ (reqs <> [] -> status (drive t reqs st) = Awaiting -> requests (drive t reqs st) <> []).
Proof.
  revert st. induction reqs as [|r rest IH]; intros st; simpl; [split; [lia|done]|].
  assert (forall st' : Stream,
            length (outputs st') = S (length (outputs st)) ->
            length (outputs (drive t rest st')) + length (requests (drive t rest st'))
            = length (outputs st) + S (length rest)
            /\ (status (drive t rest st') = Awaiting -> status st' <> Awaiting ->
                requests (drive t rest st') <> [])) as Hnext.
  { intros st' Hl. destruct (IH st') as [Hc Hn]. split; [lia|].
    intros Hs Hs'. destruct rest as [|r' rest']; [|by apply Hn].
    simpl in Hs. congruence. }
  destruct (status st) eqn:Es, r; simpl; rewrite ?Es.
  - destruct (loop_answers (start t st)) as [Hr [[Hs Ho]|[Hs Ho]]].
    + rewrite Hs. simpl. rewrite Ho. simpl. split; [lia|done].
    + destruct (status (loop (start t st))) eqn:E; try done;
        destruct (Hnext (loop (start t st)) Ho) as [Hc Hn]; (split; [exact Hc|]);
        intros _ Ha; apply Hn; congruence.
  - destruct (Hnext (answer Finished (with_status Completed st))) as [Hc Hn].
    { simpl. rewrite length_app. simpl. lia. }
    split; [exact Hc|]. intros _ Ha. by apply Hn.
  - destruct (loop_answers st) as [Hr [[Hs Ho]|[Hs Ho]]].
    + rewrite Hs. simpl. rewrite Ho. split; [lia|done].
    + destruct (status (loop st)) eqn:E; try done;
        destruct (Hnext (loop st) Ho) as [Hc Hn]; (split; [exact Hc|]);
        intros _ Ha; apply Hn; congruence.
  - destruct (complete_requests Finished st) as (_ & Ho & Hs).
    destruct (Hnext (complete Finished st) Ho) as [Hc Hn].
    split; [exact Hc|]. intros _ Ha. apply Hn; congruence.
  - split; [simpl; lia|done].
  - split; [simpl; lia|done].
  - destruct (Hnext (answer Finished st)) as [Hc Hn].
    { simpl. rewrite length_app. simpl. lia. }
    split; [exact Hc|]. intros _ Ha. apply Hn; simpl; congruence.
  - destruct (Hnext (answer Finished st)) as [Hc Hn].
    { simpl. rewrite length_app. simpl. lia. }
    split; [exact Hc|]. intros _ Ha. apply Hn; simpl; congruence.
Qed.

Lemma balanced_drive_tail (t : Z) (n : nat) (st st' : Stream) :
  balanced n st -> status st = Awaiting ->
  length (outputs st') = S (length (outputs st)) ->
  status st' <> Awaiting ->
  balanced n (drive t (tail (requests st)) st').
Proof.
  intros (Hn & Hne & _) Hs Ho Hs'. specialize (Hne Hs).
  destruct (requests st) as [|r rest] eqn:E; [done|]. simpl in *.
  destruct (drive_answers t rest st') as [Hc Hn'].
  split; [lia|]. split.
  - intros Ha. destruct rest as [|r' rest']; [simpl in Ha; congruence|by apply Hn'].
  - apply StreamingSpec.drive_idle.
Qed.

Lemma balanced_tick (t : Z) (n : nat) (st : Stream) :
  balanced n st -> balanced n (stream_tick t st).
Proof.
  intros H. unfold Streaming.stream_tick. destruct (timer st); try done.
  case_decide; [|done]. unfold Streaming.stream_timeout. simpl.
  destruct (status st) eqn:Es; try exact H.
  destruct (complete_requests timed_out (with_timer Fired st)) as (Hr & Ho & Hs).
  apply (balanced_drive_tail t n st); try done; congruence.
Qed.

Lemma balanced_wake (t : Z) (n : nat) (st : Stream) :
  balanced n st -> balanced n (wake t st).
Proof.
  intros H. unfold Streaming.wake. destruct (status st) eqn:Es; try exact H.
  destruct (loop_answers st) as [Hr [[Hs Ho]|[Hs Ho]]].
  - rewrite Hs. destruct H as (Hn & Hne & Hi). unfold More.balanced. rewrite Hr, Ho, Hs.
    repeat split; auto; done.
  - rewrite Hr. destruct (status (loop st)) eqn:E; try done;
      apply (balanced_drive_tail t n st); try done; congruence.
Qed.

Lemma balanced_step (n : nat) (st : Stream) (turn : Z * Action) :
  balanced n st -> balanced (n + length (More.asked [turn])) (stream_step st turn).
Proof.
  intros H0. pose proof (balanced_tick turn.1 n st H0) as H.
  unfold Streaming.stream_step, More.asked. simpl.
  destruct turn.2 as [ev|r|]; simpl.
  - rewrite Nat.add_0_r. unfold Streaming.stream_on.
    destruct (socket (stream_tick turn.1 st)); [|done].
    destruct ev; try exact H; by apply balanced_wake.
  - unfold Streaming.call. destruct H as (Hn & Hne & Hi).
    destruct (drive_answers turn.1 (requests (stream_tick turn.1 st) ++ [r])
                (stream_tick turn.1 st)) as [Hc Hn'].
    rewrite length_app in Hc. simpl in Hc.
    split; [lia|]. split.
    + apply Hn'. by destruct (requests (stream_tick turn.1 st)).
    + apply StreamingSpec.drive_idle.
  - by rewrite Nat.add_0_r.
Qed.

(** X7.  Every [next()] and [return()] is answered exactly once: after any
    run the answers given and the requests still pending add up to the
    requests made, and requests are pending only while the generator is
    inside its [await]. *)
Theorem stream_requests_answered (turns : list (Z * Action)) :
  let st := stream_run turns in
  length (outputs st) + length (requests st) = length (More.asked turns)
  /\ (status st = Awaiting -> requests st <> [])
  /\ (status st <> Awaiting -> requests st = []).
Proof.
  intros st. subst st. change (balanced (length (More.asked turns)) (stream_run turns)).
  induction turns as [|turn turns IH] using rev_ind.
  - repeat split; done.
  - rewrite StreamingSpec.stream_run_snoc. unfold More.asked. rewrite omap_app, length_app.
    by apply balanced_step.
Qed.

(** *** A finished generator stays finished *)

(** X8.  Once the generator has finished - by exhaustion, by [return()] or
    on an error - it stays finished: whatever events and requests follow,
    no further value is yielded, every later request is answered with
    [done], and [close()] is not called on the socket again.  Fragments
    that arrive afterwards are never parsed. *)
Theorem stream_finished_forever (st : Stream) (turns : list (Z * Action)) :
  status st = Completed ->
  let st' := fold_left stream_step turns st in
  status st' = Completed
  /\ (exists k, outputs st' = outputs st ++ replicate k Finished)
  /\ yielded (outputs st') = yielded (outputs st)
  /\ (close_calls <$> socket st') = (close_calls <$> socket st).
Proof.
  intros Hs st'.
  assert (status st' = Completed
          /\ (exists k, outputs st' = outputs st ++ replicate k Finished)
          /\ (close_calls <$> socket st') = (close_calls <$> socket st)) as (H1 & [k H2] & H3).
  { unfold st'.
    apply (StreamingSpec.stream_run_invariant baseURL JSON_parse path options
             (fun s => status s = Completed
                       /\ (exists k, outputs s = outputs st ++ replicate k Finished)
                       /\ (close_calls <$> socket s) = (close_calls <$> socket st))).
    - by intros s reqs H.
    - intros s _ (? & [k Hk] & ?). split; [done|]. split; [|done].
      exists (S k). simpl. rewrite Hk, <- app_assoc. f_equal.
      symmetry. apply replicate_cons_app.
    - intros s Hss (? & _). congruence.
    - intros s t Hss (? & _). congruence.
    - intros s [Hss|Hss] (? & _); congruence.
    - intros s Hss (? & _). congruence.
    - by intros s d _ _ H.
    - intros s d Hss _ (? & _). congruence.
    - intros s ws ev Hws (? & ? & Hc). split; [done|]. split; [done|].
      rewrite <- Hc, Hws. simpl. by rewrite StreamingSpec.ws_emit_close_calls.
    - by intros s data _ H.
    - by intros s _ H.
    - by intros s e H.
    - split; [done|]. split; [|done]. exists 0. by rewrite app_nil_r. }
  repeat split; eauto.
  rewrite H2, StreamingSpec.yielded_app. clear H2.
  assert (yielded (replicate k (@Finished JsValue JsError)) = []) as ->
    by (induction k as [|k IH]; [reflexivity|exact IH]).
  by rewrite app_nil_r.
Qed.

(** X9.  A generator that is abandoned before its first [next()] never
    opens a connection: after [return()] on a fresh generator there is no
    socket, whatever follows, and nothing is ever yielded. *)
Theorem stream_return_before_start (t : Z) (turns : list (Z * Action)) :
  let st := stream_run ((t, Call Return) :: turns) in
  socket st = None
  /\ status st = Completed
  /\ queue st = []
  /\ yielded (outputs st) = [].
Proof.
  intros st. unfold st, Streaming.stream_run. simpl.
  apply (StreamingSpec.stream_run_invariant baseURL JSON_parse path options
           (fun s => socket s = None /\ status s = Completed /\ queue s = []
                     /\ yielded (outputs s) = [])).
  - by intros s reqs H.
  - intros s _ (? & ? & ? & Hy). repeat split; try done. simpl.
    by rewrite StreamingSpec.yielded_app, Hy.
  - intros s Hss (? & ? & _). congruence.
  - intros s t' Hss (? & ? & _). congruence.
  - intros s [Hss|Hss] (? & ? & _); congruence.
  - intros s Hss (? & ? & _). congruence.
  - by intros s d _ _ H.
  - intros s d Hss _ (? & ? & _). congruence.
  - intros s ws ev Hws (? & _). congruence.
  - intros s data Hws (? & _). congruence.
  - by intros s _ H.
  - by intros s e H.
  - done.
Qed.

(** *** A consumer that keeps up loses nothing *)

Lemma fast_consumer_rounds (deadline : Z) (ws : WebSocket)
    (arrivals : list (Z * string)) (values : list JsValue) (outs : list Output) :
  Forall2 (fun a v => JSON_parse a.2 = inr v) arrivals values ->
  Forall (fun a => (a.1 < deadline)%Z) arrivals ->
  fold_left stream_step
    (flat_map (fun a => [(a.1, Ws (EvMessage a.2)); (a.1, Call Next)]) arrivals)
    (mkStream (Some ws) [] false (Armed deadline) Awaiting [Next] outs [])
  = mkStream (Some ws) [] false (Armed deadline) Awaiting [Next]
      (outs ++ (Yielded <$> values)) [].
Proof.
  intros Hp. revert outs. induction Hp as [|[ta m] v arrivals values Hm _ IH]; intros outs Hlt.
  - simpl. by rewrite app_nil_r.
  - apply Forall_cons in Hlt as [Ht Hlt]. simpl in Hm, Ht. cbn [flat_map app fold_left fst snd].
    set (s1 := mkStream (Some ws) [] false (Armed deadline) Awaiting [Next] outs [] : Stream).
    set (s2 := mkStream (Some ws) [] false (Armed deadline) SuspendedYield []
                 (outs ++ [Yielded v]) [] : Stream).
    assert (stream_step s1 (ta, Ws (EvMessage m)) = s2) as ->.
    { rewrite (StreamingSpec.stream_step_early _ _ _ _ s1 _ deadline)
        by (simpl; first [reflexivity|lia]).
      unfold Streaming.stream_on, Streaming.wake, Streaming.loop, ws_emit. simpl.
      by rewrite Hm. }
    assert (stream_step s2 (ta, Call Next)
            = mkStream (Some ws) [] false (Armed deadline) Awaiting [Next]
                (outs ++ [Yielded v]) []) as ->.
    { by rewrite (StreamingSpec.stream_step_early _ _ _ _ s2 _ deadline)
        by (simpl; first [reflexivity|lia]). }
    rewrite (IH _ Hlt). by rewrite <- app_assoc.
Qed.


End Stream.

#[local] Abbreviation demo_run :=
  (stream_run Demo.baseURL Demo.JSON_parse "/v1/execution-stream/abc/" (mkWsOptions None)).
#[local] Abbreviation demo_step :=
  (stream_step Demo.baseURL Demo.JSON_parse "/v1/execution-stream/abc/" (mkWsOptions None)).

(** Three requests made while nothing arrives: all three are pending. *)
Lemma stream_requests_answered_witness :
  let st := demo_run [(0%Z, Call Next); (1%Z, Call Next); (2%Z, Call Return)] in
  status st = Awaiting /\ outputs st = [] /\ length (requests st) = 3.
Proof.
  intros st.
  destruct (stream_requests_answered Demo.baseURL Demo.JSON_parse "/v1/execution-stream/abc/"
              (mkWsOptions None) [(0%Z, Call Next); (1%Z, Call Next); (2%Z, Call Return)])
    as (Hn & Hne & _).
  fold st in Hn, Hne.
  assert (outputs st = []) as Ho by reflexivity.
  split; [reflexivity|]. split; [exact Ho|]. rewrite Ho in Hn. exact Hn.
Defined.

(** A fragment that arrives after the sequence has ended is not delivered,
    however often the consumer asks. *)
Lemma stream_finished_forever_witness :
  let st := demo_run [(0%Z, Call Next); (10%Z, Ws EvClose)] in
  let st' := fold_left demo_step
               [(20%Z, Ws (EvMessage Demo.doc_x1)); (30%Z, Call Next); (40%Z, Call Next)] st in
  status st = Completed /\ yielded (outputs st') = [] /\ queue st' = [Demo.doc_x1].
Proof.
  intros st st'. split; [reflexivity|].
  destruct (stream_finished_forever Demo.baseURL Demo.JSON_parse "/v1/execution-stream/abc/"
              (mkWsOptions None) st
              [(20%Z, Ws (EvMessage Demo.doc_x1)); (30%Z, Call Next); (40%Z, Call Next)]
              eq_refl) as (_ & _ & Hy & _).
  split; [exact Hy|reflexivity].
Defined.


End StreamingMore.

(** ** Lists: from the resource to the wire *)

Module ClientMore.

Import Pagination.

Section Lists.

Context {JsValue Signal ApiError World Resp : Type} `{!Paginated JsValue Resp}.
Variable url_searchParams : string -> option (list (string * string)).
Variable client_get :
  string -> option (RequestOptions JsValue Signal) -> World -> (ApiError + Resp) * World.

#[local] Abbreviation Page := (@Page JsValue Signal Resp).
#[local] Abbreviation Net := (@Net JsValue Signal World).
#[local] Abbreviation getNextPages := (getNextPages url_searchParams client_get).
#[local] Abbreviation getAPIList := (Client.getAPIList client_get).

Lemma getNextPages_requests (n : nat) (P Q : Page) (net net' : Net) :
  getNextPages n P net = (inr (Some Q), net') ->
  exists reqs,
    calls net' = calls net ++ reqs /\ length reqs = n
    /\ Forall (fun r => r.1 = path P /\ r.2 <> None) reqs.
Proof.
  revert Q net'. induction n as [|n IH]; simpl; intros Q net'.
  - intros [= <- <-]. exists []. by rewrite app_nil_r.
  - destruct (Pagination.getNextPages _ _ n P net) as [[e|[p|]] net1] eqn:E; try discriminate.
    intros H. destruct (IH _ _ eq_refl) as (reqs & Hc & Hl & Hall).
    pose proof (PaginationSpec.getNextPages_transformer _ _ _ _ _ _ _ E) as [Hp _].
    apply PaginationMore.getNextPage_Some_options in H as (_ & _ & _ & opts & Hc').
    exists (reqs ++ [(path p, Some opts)]). rewrite Hc', Hc, app_assoc.
    split; [done|]. split; [rewrite length_app; simpl; lia|].
    apply Forall_app. split; [done|]. by repeat constructor.
Qed.

(** X11.  A list call followed by [n] page turns costs [n + 1] requests,
    all to the path the list was asked for: the first carries the caller's
    options as they were given, the later ones always carry options, and
    the last page still has the list's path and item transform. *)
Theorem getAPIList_then_pages (p : string) (opts : option (RequestOptions JsValue Signal))
    (f : option (JsValue -> JsValue)) (n : nat) (P Q : Page) (net net1 net2 : Net) :
  getAPIList p opts f net = (inr P, net1) ->
  getNextPages n P net1 = (inr (Some Q), net2) ->
  (client_get p opts (world net)).1 = inr (response P)
  /\ path Q = p /\ transformer Q = f
  /\ exists reqs,
       calls net2 = calls net ++ (p, opts) :: reqs
       /\ length reqs = n
       /\ Forall (fun r => r.1 = p /\ r.2 <> None) reqs.
Proof.
  unfold Client.getAPIList. intros H1 H2.
  pose proof (PaginationSpec.get_calls client_get p opts net) as (Hc & Hr & _).
  destruct (get client_get p opts net) as [[e|r] net'] eqn:E; [discriminate|].
  injection H1 as <- <-. simpl in *.
  destruct (PaginationSpec.getNextPages_transformer _ _ _ _ _ _ _ H2) as [Hp Ht].
  destruct (getNextPages_requests _ _ _ _ _ H2) as (reqs & Hc2 & Hl & Hall).
  simpl in *. repeat split; try done.
  exists reqs. rewrite Hc2, Hc, <- app_assoc. done.
Qed.

End Lists.

Section Resources.

Context {JsValue Signal ApiError World : Type}.
Variable client_get :
  string -> option (RequestOptions JsValue Signal) -> World
  -> (ApiError + PagePaginatedResponse JsValue) * World.
Variable client_get_cursor :
  string -> option (RequestOptions JsValue Signal) -> World
  -> (ApiError + CursorPaginatedResponse JsValue) * World.

#[local] Abbreviation Net := (@Net JsValue Signal World).

Lemma getAPIList_calls {Resp : Type} `{!Paginated JsValue Resp}
    (get_ : string -> option (RequestOptions JsValue Signal) -> World -> (ApiError + Resp) * World)
    (p : string) (opts : option (RequestOptions JsValue Signal))
    (f : option (JsValue -> JsValue)) (net : Net) :
  calls (Client.getAPIList get_ p opts f net).2 = calls net ++ [(p, opts)]
  /\ world (Client.getAPIList get_ p opts f net).2 = (get_ p opts (world net)).2.
Proof.
  unfold Client.getAPIList.
  pose proof (PaginationSpec.get_calls get_ p opts net) as (Hc & _ & Hw).
  destruct (get get_ p opts net) as [[e|r] net']; done.
Qed.



End Resources.

(** The stores list of the examples, and one page turn after it. *)
Lemma getAPIList_then_pages_witness :
  let net := mkNet [Demo.page1; Demo.page2] [] in
  exists P Q net1 net2,
    Client.getAPIList (Signal := unit) Demo.scripted_get "/v1/stores/" None None net
    = (inr P, net1)
    /\ getNextPages Demo.url_searchParams Demo.scripted_get 1 P net1 = (inr (Some Q), net2)
    /\ path Q = "/v1/stores/"
    /\ exists reqs, calls net2 = ("/v1/stores/", None) :: reqs /\ length reqs = 1.
Proof.
  intros net.
  destruct (Client.getAPIList (Signal := unit) Demo.scripted_get "/v1/stores/" None None net)
    as [[e|P] net1] eqn:E1; [vm_compute in E1; discriminate|].
  destruct (getNextPages Demo.url_searchParams Demo.scripted_get 1 P net1)
    as [[e|[Q|]] net2] eqn:E2;
    try (injection E1 as <- <-; vm_compute in E2; discriminate).
  destruct (getAPIList_then_pages Demo.url_searchParams Demo.scripted_get
              "/v1/stores/" None None 1 P Q net net1 net2 E1 E2)
    as (_ & Hp & _ & reqs & Hc & Hl & _).
  exists P, Q, net1, net2. repeat split; try done. by exists reqs.
Defined.

End ClientMore.

(** ** Waiting for a build *)

Module BuildWaitMore.

Import Pagination BuildWait.

Section Wait.

Context {JsValue Signal ApiError World : Type}.
Variable prop_id : JsValue -> option string.
Variable prop_status : JsValue -> option string.
Variable truthy_value : JsValue -> bool.
Variable now : World -> Z.
Variable client_get :
  string -> option (RequestOptions JsValue Signal) -> World
  -> (ApiError + PagePaginatedResponse JsValue) * World.

#[local] Abbreviation Net := (@Net JsValue Signal World).
#[local] Abbreviation first_item := (first_item truthy_value).
#[local] Abbreviation poll := (poll prop_status truthy_value now client_get).
#[local] Abbreviation waitForBuildCompletion :=
  (waitForBuildCompletion prop_id prop_status truthy_value now client_get).
#[local] Abbreviation utils_poll := (utils_poll prop_id prop_status truthy_value now client_get).
#[local] Abbreviation utils_waitForBuildCompletion :=
  (utils_waitForBuildCompletion prop_id prop_status truthy_value now client_get).

(** The two requests of a wait. *)
#[local] Abbreviation jobs_request agentId :=
  ("/v1/agent-builder-jobs",
   Some (Resources.query_only (JsValue := JsValue) (Signal := Signal)
           (Some {[ "agent_id" := Some agentId ]}))).
#[local] Abbreviation builds_request jobId :=
  ("/v1/builds",
   Some (Resources.query_only (JsValue := JsValue) (Signal := Signal)
           (Some {[ "agent_builder_job_id" := jobId ]}))).

Lemma list_request (p : string) (filter : gmap string (option string)) (net : Net) :
  let r := Client.getAPIList client_get p
             (Some (Resources.query_only (Some (Resources.filter_query (Some filter) None))))
             None net in
  calls r.2 = calls net ++ [(p, Some (Resources.query_only (Some filter)))]
  /\ world r.2 = (client_get p (Some (Resources.query_only (Some filter))) (world net)).2.
Proof.
  assert (Resources.filter_query (Some filter) None = filter) as ->
    by (unfold Resources.filter_query; simpl; apply (left_id_L ∅ (∪))).
  apply ClientMore.getAPIList_calls.
Qed.

Lemma first_item_truthy (items : list JsValue) (item : JsValue) :
  first_item items = Some item -> truthy_value item = true.
Proof.
  unfold BuildWait.first_item. destruct (head items) as [i|]; [|done].
  destruct (truthy_value i) eqn:E; [|done]. by intros [= <-].
Qed.

(** One run of the polling loop of [SwarmNodeAI.waitForBuildCompletion]. *)
Lemma poll_spec (fuel : nat) (jobId : option string) (startTime timeoutMs : Z) (net : Net) :
  let r := poll fuel jobId startTime timeoutMs net in
  (exists k, calls r.2 = calls net ++ replicate k (builds_request jobId)
             /\ (forall e, r.1 = Threw e -> 0 < k)
             /\ (forall b, r.1 = Returned (Some b) -> 0 < k))
  /\ (forall b, r.1 = Returned (Some b) ->
        prop_status b = Some "success" /\ truthy_value b = true)
  /\ (forall m, r.1 = Threw (JsThrown m) -> m = "Build failed")
  /\ (r.1 = Returned None -> (timeoutMs <= now (world r.2) - startTime)%Z).
Proof.
  revert net. induction fuel as [|fuel IH]; intros net; cbn [BuildWait.poll].
  - simpl. split; [|done]. exists 0. by rewrite app_nil_r.
  - case_decide as Ht.
    + unfold Resources.Builds_list.
      pose proof (list_request "/v1/builds" {[ "agent_builder_job_id" := jobId ]} net)
        as [Hc _]. cbn zeta in Hc.
      destruct (Client.getAPIList client_get "/v1/builds" _ None net) as [[e|builds] net1].
      * simpl in *. split; [|done]. exists 1. split; [done|]. split; intros; lia.
      * simpl in Hc.
        assert (forall r : Outcome ApiError (option JsValue) * Net,
                  r = poll fuel jobId startTime timeoutMs net1 ->
                  (exists k, calls r.2 = calls net ++ replicate k (builds_request jobId)
                             /\ (forall e, r.1 = Threw e -> 0 < k)
                             /\ (forall b, r.1 = Returned (Some b) -> 0 < k))
                  /\ (forall b, r.1 = Returned (Some b) ->
                        prop_status b = Some "success" /\ truthy_value b = true)
                  /\ (forall m, r.1 = Threw (JsThrown m) -> m = "Build failed")
                  /\ (r.1 = Returned None -> (timeoutMs <= now (world r.2) - startTime)%Z))
          as Hrec.
        { intros r ->. destruct (IH net1) as ([k (Hk & Hk1 & Hk2)] & H2 & H3 & H4).
          split; [|done]. exists (S k). rewrite Hk, Hc, <- app_assoc.
          split; [done|]. split; intros; lia. }
        destruct (first_item (getItems builds)) as [build|] eqn:Eb; [|by apply Hrec].
        case_decide as Hs.
        { simpl. split; [exists 1; split; [done|split; intros; lia]|].
          split; [|done]. intros b [= <-]. split; [done|].
          by apply first_item_truthy in Eb. }
        case_decide as Hf; [|by apply Hrec].
        simpl. split; [exists 1; split; [done|split; intros; lia]|].
        split; [done|]. split; [|done]. by intros m [= <-].
    + simpl. split; [exists 0; by rewrite app_nil_r|].
      split; [done|]. split; [done|]. intros _. lia.
Qed.

(** X14.  [SwarmNodeAI.waitForBuildCompletion] resolves to a build only if
    that build's status is ["success"], and to [undefined] only once the
    time allowed has passed since the job was found; the only errors of its
    own that it throws are "Agent builder job not found" and "Build failed".
    So running out of time is reported by [undefined], never by an error,
    and an empty build list is never an error either. *)
Theorem waitForBuildCompletion_outcome (fuel : nat) (agentId : string) (timeoutMs : option Z)
    (net : Net) :
  let r := waitForBuildCompletion fuel agentId timeoutMs net in
  let found := Resources.AgentBuilderJobs_list client_get
                 (Some {[ "agent_id" := Some agentId ]}) None net in
  (forall b, r.1 = Returned (Some b) -> prop_status b = Some "success")
  /\ (forall m, r.1 = Threw (JsThrown m) ->
        m = "Agent builder job not found" \/ m = "Build failed")
  /\ (r.1 = Returned None ->
        (default DEFAULT_BUILD_WAIT_TIME timeoutMs
         <= now (world r.2) - now (world found.2))%Z).
Proof.
  intros r found. subst r found. unfold BuildWait.waitForBuildCompletion.
  destruct (Resources.AgentBuilderJobs_list client_get _ None net) as [[e|jobs] net1];
    [done|].
  destruct (first_item (getItems jobs)) as [j|].
  - cbn zeta.
    destruct (poll_spec fuel (prop_id j) (now (world net1))
                (default DEFAULT_BUILD_WAIT_TIME timeoutMs) net1) as (_ & H2 & H3 & H4).
    cbn zeta in *. split; [intros b Hb; by apply H2|]. split; [|done].
    intros m Hm. right. by apply H3.
  - simpl. split; [done|]. split; [|done]. intros m [= <-]. by left.
Qed.

(** X15.  The requests of a wait: one for the agent's builder jobs, then
    only requests for the builds of one and the same job, each exactly like
    the one before; nothing else is asked of the server.  A build or a
    failed build is only ever reported after at least one such request. *)
Theorem waitForBuildCompletion_requests (fuel : nat) (agentId : string) (timeoutMs : option Z)
    (net : Net) :
  let r := waitForBuildCompletion fuel agentId timeoutMs net in
  exists jobId k,
    calls r.2 = calls net ++ jobs_request agentId :: replicate k (builds_request jobId)
    /\ (forall b, r.1 = Returned (Some b) -> 0 < k)
    /\ (r.1 = Threw (JsThrown "Build failed") -> 0 < k)
    /\ (r.1 = Threw (JsThrown "Agent builder job not found") -> k = 0).
Proof.
  intros r. subst r. unfold BuildWait.waitForBuildCompletion, Resources.AgentBuilderJobs_list.
  pose proof (list_request "/v1/agent-builder-jobs" {[ "agent_id" := Some agentId ]} net)
    as [Hc _]. cbn zeta in Hc.
  destruct (Client.getAPIList client_get "/v1/agent-builder-jobs" _ None net)
    as [[e|jobs] net1]; simpl in Hc.
  - exists None, 0. simpl. rewrite Hc. done.
  - destruct (first_item (getItems jobs)) as [j|].
    + cbn zeta.
      destruct (poll_spec fuel (prop_id j) (now (world net1))
                  (default DEFAULT_BUILD_WAIT_TIME timeoutMs) net1)
        as ([k (Hk & Hk1 & Hk2)] & _ & H3 & _).
      cbn zeta in *. exists (prop_id j), k. rewrite Hk, Hc, <- app_assoc.
      split; [done|]. split; [done|]. split; [by apply Hk1|].
      intros Hm. by apply H3 in Hm.
    + exists None, 0. simpl. rewrite Hc. done.
Qed.

(** With a clock that moves on by at least [delta] during every request,
    the polling loop is over after at most [n] rounds when no more than
    [delta * n] of the time allowed is left. *)
Lemma poll_ends (delta : Z) (n : nat) (jobId : option string) (startTime timeoutMs : Z)
    (net : Net) :
  (0 < delta)%Z ->
  (forall p o w, (now w + delta <= now (client_get p o w).2)%Z) ->
  (timeoutMs - (now (world net) - startTime) <= delta * Z.of_nat n)%Z ->
  (poll (S n) jobId startTime timeoutMs net).1 <> OutOfFuel.
Proof.
  intros Hd Hclock. revert net. induction n as [|n IH]; intros net Hleft.
  - cbn [BuildWait.poll]. case_decide; [lia|done].
  - remember (S n) as fuel eqn:Hfuel. cbn [BuildWait.poll]. subst fuel.
    case_decide as Ht; [|done].
    unfold Resources.Builds_list.
    pose proof (list_request "/v1/builds" {[ "agent_builder_job_id" := jobId ]} net)
      as [_ Hw]. cbn zeta in Hw.
    destruct (Client.getAPIList client_get "/v1/builds" _ None net) as [[e|builds] net1];
      [done|]. simpl in Hw.
    assert ((poll (S n) jobId startTime timeoutMs net1).1 <> OutOfFuel) as Hrec.
    { apply IH. rewrite Hw.
      pose proof (Hclock "/v1/builds"
                    (Some (Resources.query_only
                             (Some {[ "agent_builder_job_id" := jobId ]}))) (world net)).
      lia. }
    destruct (first_item (getItems builds)) as [build|]; [|done].
    case_decide; [done|]. by case_decide.
Qed.

(** X16.  The wait comes to an end if time passes: when every request takes
    at least [delta] milliseconds, [n] rounds of polling are enough for a
    timeout of up to [delta * n] milliseconds.  (Nothing in the loop itself
    lets time pass: it asks again at once.) *)
Theorem waitForBuildCompletion_ends (delta : Z) (n : nat) (agentId : string)
    (timeoutMs : option Z) (net : Net) :
  (0 < delta)%Z ->
  (forall p o w, (now w + delta <= now (client_get p o w).2)%Z) ->
  (default DEFAULT_BUILD_WAIT_TIME timeoutMs <= delta * Z.of_nat n)%Z ->
  (waitForBuildCompletion (S n) agentId timeoutMs net).1 <> OutOfFuel.
Proof.
  intros Hd Hclock Hn. unfold BuildWait.waitForBuildCompletion.
  destruct (Resources.AgentBuilderJobs_list client_get _ None net) as [[e|jobs] net1];
    [done|].
  destruct (first_item (getItems jobs)) as [j|]; [|done].
  cbn zeta. apply (poll_ends delta); try done. lia.
Qed.

(** X17.  With a timeout of zero or less the wait looks up the job and then
    resolves to [undefined] at once, without asking for any build. *)
Theorem waitForBuildCompletion_no_time (fuel : nat) (agentId : string) (timeoutMs : Z)
    (jobs : @Page JsValue Signal (PagePaginatedResponse JsValue)) (job : JsValue)
    (net net1 : Net) :
  (timeoutMs <= 0)%Z ->
  Resources.AgentBuilderJobs_list client_get (Some {[ "agent_id" := Some agentId ]}) None net
  = (inr jobs, net1) ->
  first_item (getItems jobs) = Some job ->
  waitForBuildCompletion (S fuel) agentId (Some timeoutMs) net = (Returned None, net1)
  /\ calls net1 = calls net ++ [jobs_request agentId].
Proof.
  intros Ht Hj Hfirst. unfold BuildWait.waitForBuildCompletion.
  pose proof (list_request "/v1/agent-builder-jobs" {[ "agent_id" := Some agentId ]} net)
    as [Hc _]. cbn zeta in Hc. unfold Resources.AgentBuilderJobs_list in Hj.
  rewrite Hj in Hc. split; [|exact Hc].
  unfold Resources.AgentBuilderJobs_list. rewrite Hj, Hfirst. cbn zeta.
  cbn [BuildWait.poll]. case_decide as H; [simpl in H; lia|done].
Qed.

(** One run of the polling loop of [waitForBuildCompletion] in
    [src/lib/utils.ts]. *)
Lemma utils_poll_spec (fuel : nat) (jobId : string) (startTime timeoutMs : Z) (net : Net) :
  let r := utils_poll fuel jobId startTime timeoutMs net in
  (exists k, calls r.2 = calls net ++ replicate k (builds_request (Some jobId)))
  /\ (forall i, r.1 = Returned i ->
        exists b, truthy_value b = true /\ prop_status b = Some "success" /\ i = prop_id b)
  /\ (forall m, r.1 = Threw (JsThrown m) ->
        m = "Build not found" \/ m = "Build failed" \/ m = "Build timeout exceeded")
  /\ (r.1 = Threw (JsThrown "Build timeout exceeded") ->
        (timeoutMs <= now (world r.2) - startTime)%Z).
Proof.
  revert net. induction fuel as [|fuel IH]; intros net; cbn [BuildWait.utils_poll].
  - simpl. split; [|done]. exists 0. by rewrite app_nil_r.
  - case_decide as Ht.
    + unfold Resources.Builds_list.
      pose proof (list_request "/v1/builds" {[ "agent_builder_job_id" := Some jobId ]} net)
        as [Hc _]. cbn zeta in Hc.
      destruct (Client.getAPIList client_get "/v1/builds" _ None net) as [[e|builds] net1].
      * simpl in *. split; [|done]. by exists 1.
      * simpl in Hc.
        destruct (first_item (getItems builds)) as [build|] eqn:Eb.
        2:{ simpl. split; [by exists 1|]. split; [done|]. split; [|done].
            intros m [= <-]. by left. }
        case_decide as Hs.
        { simpl. split; [by exists 1|]. split; [|done].
          intros i [= <-]. exists build. by apply first_item_truthy in Eb. }
        case_decide as Hf.
        { simpl. split; [by exists 1|]. split; [done|]. split; [|done].
          intros m [= <-]. right. by left. }
        destruct (IH net1) as ([k Hk] & H2 & H3 & H4).
        split; [|done]. exists (S k). rewrite Hk, Hc, <- app_assoc. done.
    + simpl. split; [exists 0; by rewrite app_nil_r|].
      split; [done|]. split; [|intros _; lia].
      intros m [= <-]. right. by right.
Qed.

(** X18.  The wait of [src/lib/utils.ts] asks for nothing but the builds of
    the job it was given, each request exactly like the one before.  It
    resolves only to the id of a build whose status is ["success"], and the
    errors of its own that it throws are "Build not found", "Build failed"
    and, only once the time allowed has passed since the call, "Build
    timeout exceeded". *)
Theorem utils_waitForBuildCompletion_outcome (fuel : nat) (agentBuilderJobId : string)
    (timeoutMs : option Z) (net : Net) :
  let r := utils_waitForBuildCompletion fuel agentBuilderJobId timeoutMs net in
  (exists k, calls r.2 = calls net ++ replicate k (builds_request (Some agentBuilderJobId)))
  /\ (forall i, r.1 = Returned i ->
        exists b, truthy_value b = true /\ prop_status b = Some "success" /\ i = prop_id b)
  /\ (forall m, r.1 = Threw (JsThrown m) ->
        m = "Build not found" \/ m = "Build failed" \/ m = "Build timeout exceeded")
  /\ (r.1 = Threw (JsThrown "Build timeout exceeded") ->
        (default 300000 timeoutMs <= now (world r.2) - now (world net))%Z).
Proof. intros r. apply utils_poll_spec. Qed.

(** X19.  The wait of [src/lib/utils.ts] comes to an end under the same
    condition on the clock, and with a timeout of zero or less it throws
    "Build timeout exceeded" without a single request. *)
Theorem utils_waitForBuildCompletion_ends (delta : Z) (n : nat) (agentBuilderJobId : string)
    (timeoutMs : option Z) (net : Net) :
  (0 < delta)%Z ->
  (forall p o w, (now w + delta <= now (client_get p o w).2)%Z) ->
  (default 300000 timeoutMs <= delta * Z.of_nat n)%Z ->
  (utils_waitForBuildCompletion (S n) agentBuilderJobId timeoutMs net).1 <> OutOfFuel
  /\ ((default 300000 timeoutMs <= 0)%Z ->
      utils_waitForBuildCompletion (S n) agentBuilderJobId timeoutMs net
      = (Threw (JsThrown "Build timeout exceeded"), net)).
Proof.
  intros Hd Hclock Hn. unfold BuildWait.utils_waitForBuildCompletion. split.
  - assert (forall net1 : Net,
              (default 300000 timeoutMs - (now (world net1) - now (world net))
               <= delta * Z.of_nat n)%Z ->
              (utils_poll (S n) agentBuilderJobId (now (world net))
                 (default 300000%Z timeoutMs) net1).1 <> OutOfFuel) as Hgen.
    { clear Hn. induction n as [|n IH]; intros net1 Hleft.
      - cbn [BuildWait.utils_poll]. case_decide; [lia|done].
      - remember (S n) as fuel eqn:Hfuel. cbn [BuildWait.utils_poll]. subst fuel.
        case_decide as Ht; [|done].
        unfold Resources.Builds_list.
        pose proof (list_request "/v1/builds"
                      {[ "agent_builder_job_id" := Some agentBuilderJobId ]} net1) as [_ Hw].
        cbn zeta in Hw.
        destruct (Client.getAPIList client_get "/v1/builds" _ None net1)
          as [[e|builds] net2]; [done|]. simpl in Hw.
        destruct (first_item (getItems builds)) as [build|]; [|done].
        case_decide; [done|]. case_decide; [done|].
        apply IH. rewrite Hw.
        pose proof (Hclock "/v1/builds"
                      (Some (Resources.query_only
                               (Some {[ "agent_builder_job_id" := Some agentBuilderJobId ]})))
                      (world net1)).
        lia. }
    apply Hgen. lia.
  - intros Hz. cbn [BuildWait.utils_poll]. case_decide; [lia|done].
Qed.

End Wait.

#[local] Abbreviation demo_wait :=
  (waitForBuildCompletion (Signal := unit) BuildDemo.id BuildDemo.status (fun _ => true)
     BuildDemo.clock BuildDemo.client_get).
#[local] Abbreviation demo_utils_wait :=
  (utils_waitForBuildCompletion (Signal := unit) BuildDemo.id BuildDemo.status (fun _ => true)
     BuildDemo.clock BuildDemo.client_get).

Lemma demo_clock (p : string) (o : option (RequestOptions BuildDemo.Item unit))
    (w : BuildDemo.World) :
  (BuildDemo.clock w + 100 <= BuildDemo.clock (BuildDemo.client_get p o w).2)%Z.
Proof. unfold BuildDemo.client_get. destruct (BuildDemo.pending w); simpl; lia. Qed.

(** Against the demo server, where a request takes 100 ms, a wait of 250 ms
    is over within three rounds: here with the build, at the third look. *)
Lemma waitForBuildCompletion_ends_witness :
  (demo_wait 4 "agent_1" (Some 250%Z) BuildDemo.net0).1 <> OutOfFuel
  /\ (demo_wait 4 "agent_1" (Some 250%Z) BuildDemo.net0).1
     = Returned (Some BuildDemo.build_success).
Proof.
  split; [|reflexivity].
  apply (waitForBuildCompletion_ends BuildDemo.id BuildDemo.status (fun _ => true)
           BuildDemo.clock BuildDemo.client_get 100 3 "agent_1" (Some 250%Z) BuildDemo.net0).
  - lia.
  - apply demo_clock.
  - simpl. lia.
Defined.

(** With a timeout of 0 the demo server is asked for the job and for
    nothing else. *)
Lemma waitForBuildCompletion_no_time_witness :
  exists net1,
    demo_wait 1 "agent_1" (Some 0%Z) BuildDemo.net0 = (Returned None, net1)
    /\ length (calls net1) = 1.
Proof.
  destruct (Resources.AgentBuilderJobs_list (Signal := unit) BuildDemo.client_get
              (Some {[ "agent_id" := Some "agent_1" ]}) None BuildDemo.net0)
    as [[e|jobs] net1] eqn:E; [vm_compute in E; discriminate|].
  assert (first_item (fun _ => true) (getItems jobs) = Some BuildDemo.job) as Hfirst.
  { unfold Resources.AgentBuilderJobs_list, Client.getAPIList in E. simpl in E.
    by injection E as <- <-. }
  destruct (waitForBuildCompletion_no_time BuildDemo.id BuildDemo.status (fun _ => true)
              BuildDemo.clock BuildDemo.client_get 0 "agent_1" 0 jobs BuildDemo.job
              BuildDemo.net0 net1) as [Hr Hc].
  - lia.
  - exact E.
  - exact Hfirst.
  - exists net1. split; [exact Hr|]. by rewrite Hc.
Defined.

(** The wait of [src/lib/utils.ts] with a timeout of 0: an error, and the
    demo server is not asked at all. *)
Lemma utils_waitForBuildCompletion_ends_witness :
  demo_utils_wait 1 "job_1" (Some 0%Z) BuildDemo.net0
  = (Threw (JsThrown "Build timeout exceeded"), BuildDemo.net0).
Proof.
  destruct (utils_waitForBuildCompletion_ends BuildDemo.id BuildDemo.status (fun _ => true)
              BuildDemo.clock BuildDemo.client_get 100 0 "job_1" (Some 0%Z) BuildDemo.net0)
    as [_ H].
  - lia.
  - apply demo_clock.
  - simpl. lia.
  - apply H. simpl. lia.
Defined.

End BuildWaitMore.

(** ** Responses and the errors made from them *)

Module HttpMore.

Import Errors Http.

Section Handler.

Context {JsValue JsError Headers : Type}.
Variable truthy_value : JsValue -> bool.
Variable prop_message : JsValue -> option JsValue.
Variable typeof_string : JsValue -> option string.
Variable JSON_stringify : JsValue -> option string.
Variable JSON_parse : string -> JsError + JsValue.
Variable headers_get : Headers -> string -> option string.
Variable headers_copy : Headers -> Headers.

#[local] Abbreviation Response := (@Response Headers).
#[local] Abbreviation safeJSON := (safeJSON JSON_parse).
#[local] Abbreviation makeMessage :=
  (makeMessage truthy_value prop_message typeof_string JSON_stringify).
#[local] Abbreviation createAPIError :=
  (createAPIError truthy_value prop_message typeof_string JSON_stringify JSON_parse
     headers_copy).
#[local] Abbreviation handleResponse :=
  (handleResponse truthy_value prop_message typeof_string JSON_stringify JSON_parse
     headers_get headers_copy).

Lemma truthy_number_Some (n : Z) : n <> 0%Z -> truthy_number (Some n) = true.
Proof. by destruct n. Qed.

(** The error made for a response with a status other than zero. *)
Lemma createAPIError_unfold (r : Response) :
  status r <> 0%Z ->
  exists c,
    createAPIError r
    = new_APIError truthy_value prop_message typeof_string JSON_stringify c
        (Some (status r)) (safeJSON (text r))
        (match safeJSON (text r) with
         | Some v => if truthy_value v then None else Some (text r)
         | None => Some (text r)
         end)
        (Some (headers_copy (headers r)))
    /\ c <> APIConnectionError
    /\ (c = InternalServerError <-> (500 <= status r)%Z)
    /\ (c = NotFoundError <-> status r = 404%Z).
Proof.
  intros Hs. unfold Http.createAPIError, generate. rewrite truthy_number_Some by done.
  eexists. split; [reflexivity|].
  repeat case_decide; repeat split; intros; try done; try lia.
Qed.

(** What [makeMessage] gives for a status other than zero. *)
Lemma makeMessage_status (n : Z) (error : option JsValue) (message : option string) :
  n <> 0%Z ->
  exists rest, rest <> EmptyString
               /\ makeMessage (Some n) error message = pretty n +:+ " " +:+ rest.
Proof.
  intros Hn. unfold Errors.makeMessage. rewrite truthy_number_Some by done.
  match goal with |- context [truthy ?m] => destruct m as [[|c t]|] end; simpl.
  - by exists "status code (no body)".
  - by exists (String c t).
  - by exists "status code (no body)".
Qed.

(** X20.  The error made for a failed response is classified by the status
    alone.  For any status other than zero it is never a connection error,
    it records the status, a copy of the headers and the decoded body, and
    it is an [InternalServerError] exactly from 500 upwards; only for a
    status of zero is it a connection error, which then keeps neither
    status nor headers nor body, the decoded body surviving in the cause
    alone. *)
Theorem createAPIError_class (r : Response) :
  let e := createAPIError r in
  (status r <> 0%Z ->
     class e <> APIConnectionError
     /\ Errors.status e = Some (status r)
     /\ Errors.headers e = Some (headers_copy (headers r))
     /\ error e = safeJSON (text r)
     /\ cause e = None
     /\ (class e = InternalServerError <-> (500 <= status r)%Z)
     /\ (class e = NotFoundError <-> status r = 404%Z))
  /\ (status r = 0%Z ->
        class e = APIConnectionError
        /\ Errors.status e = None
        /\ Errors.headers e = None
        /\ error e = None
        /\ cause e = Some (castToError (safeJSON (text r)))).
Proof.
  intros e. subst e. split.
  - intros Hs. destruct (createAPIError_unfold r Hs) as (c & -> & Hc & H5 & H4). done.
  - intros Hs. unfold Http.createAPIError, generate. rewrite Hs. done.
Qed.

(** X21.  Whatever the body, the message of the error made for a failed
    response with a status other than zero starts with that status and a
    space, and something follows: it is never empty and never the bare
    status. *)
Theorem createAPIError_message (r : Response) :
  status r <> 0%Z ->
  exists rest,
    rest <> EmptyString
    /\ message (createAPIError r) = pretty (status r) +:+ " " +:+ rest.
Proof.
  intros Hs. destruct (createAPIError_unfold r Hs) as (c & -> & _). simpl.
  by apply makeMessage_status.
Qed.

(** X22.  When the body of a failed response is not JSON, or is a falsy
    JSON value such as [null], the message is the status followed by the
    body text as it came, or by "status code (no body)" when the body is
    empty. *)
Theorem createAPIError_message_text (r : Response) :
  status r <> 0%Z ->
  (safeJSON (text r) = None
   \/ exists v, safeJSON (text r) = Some v /\ truthy_value v = false
                /\ prop_message v = None) ->
  message (createAPIError r)
  = if decide (text r = EmptyString)
    then pretty (status r) +:+ " status code (no body)"
    else pretty (status r) +:+ " " +:+ text r.
Proof.
  intros Hs Hbody. destruct (createAPIError_unfold r Hs) as (c & -> & _). simpl.
  unfold Errors.makeMessage. rewrite truthy_number_Some by done.
  destruct Hbody as [->|(v & -> & Hv & Hm)]; simpl; rewrite ?Hm, ?Hv;
    by destruct (text r).
Qed.

(** X23.  When the body of a failed response is a JSON document with a
    non-empty string under [message], the error's message is the status
    followed by that string, and nothing else of the body. *)
Theorem createAPIError_message_json (r : Response) (v m : JsValue) (text_ : string) :
  status r <> 0%Z ->
  JSON_parse (text r) = inr v ->
  prop_message v = Some m ->
  truthy_value m = true ->
  typeof_string m = Some text_ ->
  text_ <> EmptyString ->
  message (createAPIError r) = pretty (status r) +:+ " " +:+ text_
  /\ error (createAPIError r) = Some v.
Proof.
  intros Hs Hp Hm Ht Hstr Hne. destruct (createAPIError_unfold r Hs) as (c & -> & _). simpl.
  unfold Http.safeJSON. rewrite Hp. split; [|done].
  unfold Errors.makeMessage. rewrite truthy_number_Some by done. simpl.
  rewrite Hm, Ht, Hstr. by destruct text_.
Qed.


End Handler.

#[local] Abbreviation demo_error :=
  (createAPIError HttpDemo.truthy_value HttpDemo.prop_message HttpDemo.typeof_string
     HttpDemo.JSON_stringify HttpDemo.JSON_parse HttpDemo.headers_copy).

(** A 502 with an HTML body. *)
Lemma createAPIError_message_witness :
  exists rest, message (demo_error HttpDemo.bad_gateway) = "502 " +:+ rest.
Proof.
  destruct (createAPIError_message HttpDemo.truthy_value HttpDemo.prop_message
              HttpDemo.typeof_string HttpDemo.JSON_stringify HttpDemo.JSON_parse
              HttpDemo.headers_copy HttpDemo.bad_gateway) as (rest & _ & H).
  - simpl. lia.
  - exists rest. exact H.
Defined.

Lemma createAPIError_message_text_witness :
  message (demo_error HttpDemo.bad_gateway) = "502 Bad Gateway".
Proof.
  apply (createAPIError_message_text HttpDemo.truthy_value HttpDemo.prop_message
           HttpDemo.typeof_string HttpDemo.JSON_stringify HttpDemo.JSON_parse
           HttpDemo.headers_copy HttpDemo.bad_gateway).
  - simpl. lia.
  - left. reflexivity.
Defined.

(** A 404 whose body is [{"message":"Store not found"}]. *)
Lemma createAPIError_message_json_witness :
  message (demo_error HttpDemo.not_found) = "404 Store not found"
  /\ error (demo_error HttpDemo.not_found)
     = Some (HttpDemo.JObj "message" (HttpDemo.JStr "Store not found")).
Proof.
  apply (createAPIError_message_json HttpDemo.truthy_value HttpDemo.prop_message
           HttpDemo.typeof_string HttpDemo.JSON_stringify HttpDemo.JSON_parse
           HttpDemo.headers_copy HttpDemo.not_found
           (HttpDemo.JObj "message" (HttpDemo.JStr "Store not found"))
           (HttpDemo.JStr "Store not found") "Store not found").
  - simpl. lia.
  - reflexivity.
  - reflexivity.
  - reflexivity.
  - reflexivity.
  - discriminate.
Defined.

End HttpMore.
